(** * dune-stuff: a shallow embedding of the container utilities

    The development follows the layout of the sources:
    - [Stream]  : the conversions of the C++ stream library that the
                  sources rely on, to run them on concrete texts;
    - [Common]  : [wraparound_array] (common/misc.hh) and
                  [ExtendedParameterTree] (common/parameter/tree.hh);
    - [LA]      : [EigenDenseMatrix] (la/container/eigen_dense.hh) and
                  [SparsityPatternDefault] (la/container/pattern.hh);
    - [Stuff]   : [writeSparseMatrix] / [readSparseMatrix] (stuff/matrix.hh).

    Definitions come first, the theorems about them afterwards. *)

From Stdlib Require Import ZArith Lia Bool List.
From Stdlib Require Import Ascii String DecimalString.
From Stdlib Require Import Floats.
From stdpp Require Import base list gmap strings.

(* ===================================================================== *)
(** * Part I: the embedding                                               *)
(* ===================================================================== *)

(** ** Machine integers used by the sources *)

Module CInt.
Local Open Scope Z_scope.
(** [int] is a 32 bit two's complement integer, [std::size_t] a 64 bit
    unsigned one. Signed overflow is undefined, so signed operations are
    partial. *)
Definition INT_MIN : Z := - 2 ^ 31.
Definition INT_MAX : Z := 2 ^ 31 - 1.
Definition SIZE_MOD : Z := 2 ^ 64.

Definition is_int (i : Z) : bool := (INT_MIN <=? i) && (i <=? INT_MAX).

Definition checked (r : Z) : option Z := if is_int r then Some r else None.

(** [a * b], [a + b], [a - b] on [int]. *)
Definition mul (a b : Z) : option Z := checked (a * b).
Definition add (a b : Z) : option Z := checked (a + b).
Definition sub (a b : Z) : option Z := checked (a - b).

(** [a % b] on [int]: truncated remainder, undefined for a zero divisor. *)
Definition rem (a b : Z) : option Z :=
  if b =? 0 then None else checked (Z.rem a b).

(** [static_cast< std::size_t >(i)] and [std::size_t(i)]. *)
Definition to_size_t (i : Z) : Z := i mod SIZE_MOD.
End CInt.

(** ** The conversions of the C++ stream library

    [operator<<] and [operator>>] for [double] and [int] belong to the C++
    library, not to the sources. Where a function of the sources is run on
    a concrete text, their results are needed; they are determined by the
    language standard together with IEEE 754 (conversion with correct
    rounding, ties to even), and are computed here with exact integer
    arithmetic. *)

Module Stream.
Local Open Scope Z_scope.





(** [std::isspace] in the "C" locale. *)
Definition isspace (c : ascii) : bool :=
  let n := nat_of_ascii c in
  Nat.eqb n 32%nat || (Nat.leb 9%nat n && Nat.leb n 13%nat).

Fixpoint skip_whitespace (l : list ascii) : list ascii :=
  match l with
  | c :: l' => if isspace c then skip_whitespace l' else l
  | [] => []
  end.

(** A run of decimal digits at the head of [l]: the number they make when
    appended to the digits of [acc], how many there are, and the rest of
    the text. *)
Fixpoint read_digits (acc : Z) (count : nat) (l : list ascii)
    : (Z * nat * list ascii)%type :=
  match l with
  | c :: l' =>
      let n := nat_of_ascii c in
      if Nat.leb 48%nat n && Nat.leb n 57%nat
      then read_digits (10 * acc + Z.of_nat (n - 48)%nat) (S count) l'
      else (acc, count, l)
  | [] => (acc, count, l)
  end.

(** An optional sign: whether it is a minus, and the rest of the text. *)
Definition read_sign (l : list ascii) : (bool * list ascii)%type :=
  match l with
  | c :: l' =>
      if Ascii.eqb c "-"%char then (true, l')
      else if Ascii.eqb c "+"%char then (false, l')
      else (false, l)
  | [] => (false, l)
  end.

(** [DBL_MAX] *)
Definition DBL_MAX : float := 0x1.fffffffffffffp+1023%float.

(** The double nearest to [(-1)^neg * mant * 10^e10], ties to even; a
    value beyond the range of [double] is replaced by the largest finite
    one. *)
Definition decimal_to_double (neg : bool) (mant e10 : Z) : float :=
  match mant with
  | Zpos m =>
      let r :=
        if Z.leb 0 e10
        then SpecFloat.binary_normalize 53 1024 (Zpos m * 10 ^ e10) 0 false
        else SpecFloat.SFdiv 53 1024 (S754_finite false m 0)
               (S754_finite false (Z.to_pos (10 ^ (- e10))) 0) in
      match r with
      | S754_infinity _ => if neg then PrimFloat.opp DBL_MAX else DBL_MAX
      | _ => if neg then PrimFloat.opp (SF2Prim r) else SF2Prim r
      end
  | _ => if neg then PrimFloat.opp PrimFloat.zero else PrimFloat.zero
  end.

(** The number at the head of a text that does not start with white
    space: an optional sign, digits with an optional decimal point, and an
    optional exponent. [None] if the text does not start with a number. *)
Definition read_number (l : list ascii) : option float :=
  let '(neg, l1) := read_sign l in
  let '(int_part, int_count, l2) := read_digits 0 0%nat l1 in
  let '(mant, frac_count, l3) :=
    match l2 with
    | c :: l2' => if Ascii.eqb c "."%char then read_digits int_part 0%nat l2'
                  else (int_part, 0%nat, l2)
    | [] => (int_part, 0%nat, l2)
    end in
  if Nat.eqb (int_count + frac_count)%nat 0%nat then None
  else
    match l3 with
    | c :: l3' =>
        if Ascii.eqb c "e"%char || Ascii.eqb c "E"%char then
          let '(eneg, l4) := read_sign l3' in
          let '(ev, ecount, _) := read_digits 0 0%nat l4 in
          if Nat.eqb ecount 0%nat then None
          else Some (decimal_to_double neg mant
                       ((if eneg then - ev else ev) - Z.of_nat frac_count))
        else Some (decimal_to_double neg mant (- Z.of_nat frac_count))
    | [] => Some (decimal_to_double neg mant (- Z.of_nat frac_count))
    end.

(** [std::istringstream in(subs); in >> temp] for a [double] [temp]: the
    value of [temp] afterwards. Leading white space is skipped; if nothing
    is left the extraction does not start and [temp] keeps its value;
    otherwise [temp] is the number read, or zero if there is none. *)
Definition extract_double (subs : list ascii) (temp : float) : float :=
  match skip_whitespace subs with
  | [] => temp
  | l => match read_number l with
         | Some x => x
         | None => PrimFloat.zero
         end
  end.

(** [s >> val] for an [int] [val] on a stream over [l]: the number read
    and the rest of the text; [None] if the extraction fails (no digits,
    or a number that is not an [int]). *)
Definition read_int (l : list ascii) : option (Z * list ascii) :=
  let '(neg, l1) := read_sign (skip_whitespace l) in
  let '(v, count, rest) := read_digits 0 0%nat l1 in
  if Nat.eqb count 0%nat then None
  else
    let val := if neg then - v else v in
    if CInt.is_int val then Some (val, rest) else None.
End Stream.

(** ** Dune::Stuff::Common *)

Module Common.

(** *** wraparound_array< T, N > *)
Section wraparound_array.
Local Open Scope Z_scope.
Context {T : Type}.
(** The template parameter [int N]. *)
Variable N : Z.

(** The base class [Dune::array< T, N >], a fixed block of [N] elements.
    [BaseType::operator[]] does no range check; an index outside of the
    block has no defined result, which is [None] here. *)
Definition BaseType : Type := list T.

Definition BaseType_subscript (a : BaseType) (idx : Z) : option T :=
  if (0 <=? idx) && (idx <? N) then nth_error a (Z.to_nat idx) else None.

(** [operator[](std::size_t i)]: [BaseType::operator[](i % N)], where [N]
    is converted to [std::size_t]. *)
Definition real_index_size_t (i : Z) : option Z :=
  let n := CInt.to_size_t N in
  if n =? 0 then None else Some (i mod n).

Definition subscript_size_t (a : BaseType) (i : Z) : option T :=
  match real_index_size_t i with
  | Some idx => BaseType_subscript a idx
  | None => None
  end.

(** [operator[](int i)]:
<<
    const std::size_t real_index =
        i < 0 ? static_cast< std::size_t >( N - ( ( (i * -1) % N ) + 1 ) )
              : std::size_t(i);
>>
*)
Definition real_index_int (i : Z) : option Z :=
  if i <? 0 then
    match CInt.mul i (-1) with
    | Some m =>
        match CInt.rem m N with
        | Some r =>
            match CInt.add r 1 with
            | Some r1 =>
                match CInt.sub N r1 with
                | Some d => Some (CInt.to_size_t d)
                | None => None
                end
            | None => None
            end
        | None => None
        end
    | None => None
    end
  else Some (CInt.to_size_t i).

Definition subscript_int (a : BaseType) (i : Z) : option T :=
  match real_index_int i with
  | Some idx => BaseType_subscript a idx
  | None => None
  end.
End wraparound_array.

(** *** getIdx *)

Section getIdx.
Context {value_type : Type} `{EqDecision value_type}.


End getIdx.

(** *** ExtendedParameterTree *)

(** [Dune::RangeError] and any other exception of dune-common. *)
Inductive DuneException : Type :=
| RangeError (what : string)
| OtherException (what : string).

(** The base class [Dune::ParameterTree] belongs to dune-common. The members
    that [ExtendedParameterTree] calls are its interface here, for one value
    type [T]. *)
Class ParameterTree (BaseType T : Type) := {
  hasKey : BaseType -> string -> bool;
  (* BaseType::get< T >(key) *)
  BaseType_get : BaseType -> string -> DuneException + T;
  (* BaseType::get< T >(key, defaultValue) *)
  BaseType_get_default : BaseType -> string -> T -> DuneException + T;
  (* ExtendedParameterTree::reportString(prefix), which prints the base *)
  reportString : BaseType -> string -> string
}.

Section ExtendedParameterTree.
Context {BaseType T : Type} `{ParameterTree BaseType T}.

(** [highlightString] of common/color.hh. *)
Variable highlightString : string -> nat -> string.

(** [operator<<] for a value of type [T]. *)
Variable show : T -> string.

(** What a call writes to [std::cout]: the pieces of text, in order, the
    last one being [std::endl]. *)
Definition endl : string := String (ascii_of_nat 10) EmptyString.

(** The overloads [get(_key, defaultValue)] for [std::string],
    [const char*], [int] and [double]. *)
Definition get_typed (this : BaseType) (_key : string) (defaultValue : T)
    : (DuneException + T) * list string :=
  let cout :=
    if negb (hasKey this _key)
    then [ highlightString "WARNING:" 9;
           (" missing key '" ++ _key ++ "' is replaced by given default value '"
              ++ show defaultValue ++ "'!")%string;
           endl ]
    else [] in
  (BaseType_get_default this _key defaultValue, cout).

(** [template< typename T > T get(_key, defaultValue)] *)
Definition get_default (this : BaseType) (_key : string) (defaultValue : T)
    : (DuneException + T) * list string :=
  let cout :=
    if negb (hasKey this _key)
    then [ highlightString "WARNING:" 9;
           (" missing key '" ++ _key ++ "' is replaced by given default value!")%string;
           endl ]
    else [] in
  (BaseType_get_default this _key defaultValue, cout).

(** [template< class T > T get(_key)] *)
Definition get (this : BaseType) (_key : string) : DuneException + T :=
  if negb (hasKey this _key)
  then inl (RangeError
              (String (ascii_of_nat 10) "ERROR: key '" ++ _key
                 ++ "' missing  in the following Dune::ParameterTree:"
                 ++ endl ++ reportString this "  ")%string)
  else BaseType_get this _key.

(** What the lookups take from the base class: [get< T >(key, defaultValue)]
    of dune-common is [get< T >(key)] for a key that is there and
    [defaultValue] for a key that is not. Nothing is assumed about
    [get< T >(key)] itself: for a key that is there it may return the value
    or raise, as dune-common does with a [RangeError] for a text that cannot
    be converted to [T]. *)
Record base_contract : Prop := {
  get_default_spec : forall this key d,
    BaseType_get_default this key d
    = if hasKey this key then BaseType_get this key else inr d
}.
End ExtendedParameterTree.

(** [highlightString] on a terminal without colours. *)
Definition plain_highlightString (s : string) (colour : nat) : string := s.

(** *** A model of [Dune::ParameterTree]

    The base class keeps its values and its sub trees in two
    [std::map]s over [std::string], which [reportAsSub] walks through in
    the order of the keys; the lists below stand for the maps, in that
    order. *)
#[local] Set Warnings "-register-all".
Inductive DuneParameterTree : Type :=
| Tree (values : list (string * string)) (subs : list (string * DuneParameterTree)).

Definition values (t : DuneParameterTree) : list (string * string) :=
  match t with Tree values _ => values end.

Definition subs (t : DuneParameterTree) : list (string * DuneParameterTree) :=
  match t with Tree _ subs => subs end.

(** The entry of a map under a key. *)
Fixpoint map_find {A} (key : string) (m : list (string * A)) : option A :=
  match m with
  | [] => None
  | (k, a) :: m' => if String.eqb k key then Some a else map_find key m'
  end.

(** A key is a path: the names of sub trees and, last, the name of a
    value, separated by dots. [cur] is the name read so far. *)
Fixpoint key_path (cur key : string) : list string :=
  match key with
  | EmptyString => [cur]
  | String c key' =>
      if Ascii.eqb c "."%char then cur :: key_path EmptyString key'
      else key_path (cur ++ String c EmptyString) key'
  end.

(** The text stored under a path. *)
Fixpoint tree_find (path : list string) (t : DuneParameterTree) : option string :=
  match path with
  | [] => None
  | name :: path' =>
      match path' with
      | [] => map_find name (values t)
      | _ => match map_find name (subs t) with
             | Some s => tree_find path' s
             | None => None
             end
      end
  end.

(** [ParameterTree::hasKey] and [ParameterTree::operator[]]. *)
Definition tree_hasKey (t : DuneParameterTree) (key : string) : bool :=
  bool_decide (is_Some (tree_find (key_path EmptyString key) t)).

Definition tree_at (t : DuneParameterTree) (key : string) : DuneException + string :=
  match tree_find (key_path EmptyString key) t with
  | Some text => inr text
  | None => inl (RangeError ("Key '" ++ key ++ "' not found in ParameterTree"))
  end.

(** [ParameterTree::Parser< int >::parse]: the text is read as one [int]
    by a stream; it is an error if that fails, or if anything other than
    white space follows the number. *)
Definition parse_int (text : string) : option Z :=
  match Stream.read_int (list_ascii_of_string text) with
  | Some (val, rest) =>
      match Stream.skip_whitespace rest with
      | [] => Some val
      | _ => None
      end
  | None => None
  end.

(** [ParameterTree::get< T >(key)] for a parser of [T]: a [RangeError] for
    a key that is not there, and for a text that the parser rejects. (The
    texts of these two exceptions are dune-common's; no statement depends
    on them.) *)
Definition tree_get {T} (parse : string -> option T) (t : DuneParameterTree)
    (key : string) : DuneException + T :=
  match tree_at t key with
  | inr text =>
      match parse text with
      | Some v => inr v
      | None => inl (RangeError ("Cannot parse value '" ++ text ++ "' for key '"
                                   ++ key ++ "'"))
      end
  | inl e => inl e
  end.

(** [ParameterTree::get< T >(key, defaultValue)] *)
Definition tree_get_default {T} (parse : string -> option T) (t : DuneParameterTree)
    (key : string) (defaultValue : T) : DuneException + T :=
  if tree_hasKey t key then tree_get parse t key else inr defaultValue.

(** [reportAsSub(stream, prefix, subPath)] of [ExtendedParameterTree]:
    what it writes to the stream. *)
Fixpoint reportAsSub (t : DuneParameterTree) (prefix subPath : string) : string :=
  match t with
  | Tree values subs =>
      (String.concat EmptyString
         (map (fun pair : string * string =>
                 prefix ++ fst pair ++ " = " ++ snd pair ++ endl) values)
       ++ String.concat EmptyString
            (map (fun pair : string * DuneParameterTree =>
                    let '(name, subTree) := pair in
                    (match subTree with
                     | Tree [] _ => EmptyString
                     | Tree (_ :: _) _ =>
                         prefix ++ "[ " ++ subPath ++ name ++ " ]" ++ endl
                     end)
                    ++ reportAsSub subTree prefix (subPath ++ name ++ "."))
               subs))%string
  end.

(** The tree as the base of an [ExtendedParameterTree], for the value
    types [std::string] and [int]. [reportString(prefix)] is
    [reportAsSub] with the empty [subPath], through [report]. *)
#[export] Instance tree_string : ParameterTree DuneParameterTree string := {|
  hasKey := tree_hasKey;
  BaseType_get := tree_get Some;
  BaseType_get_default := tree_get_default Some;
  reportString this prefix := reportAsSub this prefix EmptyString
|}.

#[export] Instance tree_int : ParameterTree DuneParameterTree Z := {|
  hasKey := tree_hasKey;
  BaseType_get := tree_get parse_int;
  BaseType_get_default := tree_get_default parse_int;
  reportString this prefix := reportAsSub this prefix EmptyString
|}.

(** A tree with the values [dt], [n] and [steps] and the sub tree [grid],
    which holds the value [cells]. The text under [n] is not a number. *)
Definition example_tree : DuneParameterTree :=
  Tree [ ("dt", "0.1"); ("n", "abc"); ("steps", "10") ]
       [ ("grid", Tree [ ("cells", "4") ] []) ].
End Common.

(** ** Scalars

    The containers are templates over the scalar type ([ScalarImp],
    [T::ElementType]); the operations the sources use on it form the
    interface below. The default instantiation is [double]. *)

Class ScalarType (S : Type) := {
  scalar_0 : S;                 (* ScalarType(0) *)
  scalar_1 : S;                 (* ScalarType(1) *)
  plus : S -> S -> S;           (* operator+ *)
  times : S -> S -> S;          (* operator* *)
  std_abs : S -> S;             (* std::abs *)
  less : S -> S -> bool         (* operator< *)
}.

(** [double]: IEEE 754 binary64, as the kernel's primitive floats. *)
#[export] Instance double : ScalarType PrimFloat.float := {|
  scalar_0 := PrimFloat.zero;
  scalar_1 := PrimFloat.one;
  plus := PrimFloat.add;
  times := PrimFloat.mul;
  std_abs := PrimFloat.abs;
  less := PrimFloat.ltb
|}.

(** Decimal output of a [size_t] by [operator<<]. *)
Definition show_size_t (n : nat) : string :=
  DecimalString.NilZero.string_of_uint (Nat.to_uint n).

(** ** Dune::Stuff::LA *)

Module LA.

(** The exceptions of dune/stuff/common/exceptions.hh which the container
    raises through [DUNE_THROW]; [what] is the text streamed into the
    macro. *)
Inductive Exception : Type :=
| index_out_of_range (what : string)
| shapes_do_not_match (what : string).

(** How a call can end without a result. *)
Inductive failure : Type :=
| Throw (e : Exception)        (* DUNE_THROW *)
| AssertionFailed              (* assert(...) / eigen_assert(...) *)
| InvalidObject.               (* use of an object that does not exist *)

Section EigenDenseMatrix.
Context {ScalarImp : Type} `{ScalarType ScalarImp}.

(** [BackendType]: [Eigen::Matrix< ScalarType, Dynamic, Dynamic >], seen
    through its shape and its coefficient access. *)
Record BackendType : Type := {
  b_rows : nat;
  b_cols : nat;
  coeff : nat -> nat -> ScalarImp
}.

(** The control block of a [std::shared_ptr< BackendType >] together with
    the object it manages. *)
Record Cell : Type := {
  pointee : BackendType;
  use_count : nat
}.

(** The store: the managed backends, addressed by position, and the
    [backend_] member of every [EigenDenseMatrix] object, addressed by the
    identity of the object. *)
Record State : Type := {
  heap : list Cell;
  objs : list nat
}.

Definition M (A : Type) : Type := State -> (failure + A) * State.

Definition ret {A} (x : A) : M A := fun s => (inr x, s).
Definition bind {A B} (m : M A) (k : A -> M B) : M B :=
  fun s => match m s with
           | (inr x, s') => k x s'
           | (inl e, s') => (inl e, s')
           end.
Definition fail {A} (e : failure) : M A := fun s => (inl e, s).
Definition DUNE_THROW {A} (e : Exception) : M A := fail (Throw e).
Definition assert (b : bool) : M unit :=
  if b then ret tt else fail AssertionFailed.

(** [for (size_t k = 0; k < n; ++k) body(k)]. The sources write the bound as
    [rows()] or [cols()], which the body does not change; it is read once,
    before the loop. *)
Fixpoint for_each (ks : list nat) (body : nat -> M unit) : M unit :=
  match ks with
  | [] => ret tt
  | k :: ks' => bind (body k) (fun _ => for_each ks' body)
  end.
Definition for_upto (n : nat) (body : nat -> M unit) : M unit :=
  for_each (seq 0 n) body.

Notation "'let*' x ':=' m 'in' k" := (bind m (fun x => k))
  (at level 10, x name, m at level 100, k at level 200).
Notation "'do' m 'then' k" := (bind m (fun _ => k))
  (at level 10, m at level 100, k at level 200).

(** *** [std::shared_ptr< BackendType >] *)

(** Reading the member [backend_] of the object [this]. *)
Definition backend_ptr (this : nat) : M nat :=
  fun s => match objs s !! this with
           | Some p => (inr p, s)
           | None => (inl InvalidObject, s)
           end.

(** [*ptr] and [ptr->], at the address [p]. *)
Definition deref (p : nat) : M Cell :=
  fun s => match heap s !! p with
           | Some c => (inr c, s)
           | None => (inl InvalidObject, s)
           end.

Definition update_cell (p : nat) (f : Cell -> Cell) : M unit :=
  fun s => (inr tt, {| heap := alter f p (heap s); objs := objs s |}).

Definition acquire (p : nat) : M unit :=
  update_cell p (fun c => {| pointee := pointee c; use_count := S (use_count c) |}).

Definition release (p : nat) : M unit :=
  update_cell p (fun c => {| pointee := pointee c; use_count := Nat.pred (use_count c) |}).

Definition store_backend_ (this p : nat) : M unit :=
  fun s => (inr tt, {| heap := heap s; objs := <[this := p]> (objs s) |}).

(** [std::make_shared< BackendType >(b)] and [new BackendType(b)] handed to
    a [shared_ptr]: a new control block with one owner. *)
Definition make_shared (b : BackendType) : M nat :=
  fun s => (inr (length (heap s)),
            {| heap := heap s ++ [{| pointee := b; use_count := 1 |}];
               objs := objs s |}).

(** [backend_ = q] for another [shared_ptr] [q] (copy assignment): [q]'s
    block gains an owner, the block held so far loses one. *)
Definition shared_ptr_copy_assign (this p : nat) : M unit :=
  do acquire p then
  let* old := backend_ptr this in
  do release old then
  store_backend_ this p.

(** [backend_ = std::make_shared< BackendType >(...)] (move assignment of
    the temporary). *)
Definition shared_ptr_move_assign (this p : nat) : M unit :=
  let* old := backend_ptr this in
  do release old then
  store_backend_ this p.

(** [backend_.unique()] *)
Definition unique (this : nat) : M bool :=
  let* p := backend_ptr this in
  let* c := deref p in
  ret (Nat.eqb (use_count c) 1).

(** *** The Eigen operations used on a backend *)

Definition in_shape (b : BackendType) (i j : nat) : bool :=
  Nat.ltb i (b_rows b) && Nat.ltb j (b_cols b).

Definition set_coeff (b : BackendType) (i j : nat) (v : ScalarImp) : BackendType :=
  {| b_rows := b_rows b; b_cols := b_cols b;
     coeff := fun i' j' => if Nat.eqb i' i && Nat.eqb j' j then v else coeff b i' j' |}.

(** [b *= alpha] *)
Definition scale_coeffs (alpha : ScalarImp) (b : BackendType) : BackendType :=
  {| b_rows := b_rows b; b_cols := b_cols b;
     coeff := fun i j => times (coeff b i j) alpha |}.

(** [b += alpha * x] *)
Definition add_scaled_coeffs (alpha : ScalarImp) (x b : BackendType) : BackendType :=
  {| b_rows := b_rows b; b_cols := b_cols b;
     coeff := fun i j => plus (coeff b i j) (times alpha (coeff x i j)) |}.

Definition with_pointee (f : BackendType -> BackendType) (c : Cell) : Cell :=
  {| pointee := f (pointee c); use_count := use_count c |}.

(** [p->operator()(i, j)], read. Eigen guards the indices by
    [eigen_assert]. *)
Definition eigen_get (p i j : nat) : M ScalarImp :=
  let* c := deref p in
  do assert (in_shape (pointee c) i j) then
  ret (coeff (pointee c) i j).

(** [p->operator()(i, j) = v] *)
Definition eigen_set (p i j : nat) (v : ScalarImp) : M unit :=
  let* c := deref p in
  do assert (in_shape (pointee c) i j) then
  update_cell p (with_pointee (fun b => set_coeff b i j v)).

(** [*p *= alpha] *)
Definition eigen_scale (p : nat) (alpha : ScalarImp) : M unit :=
  let* c := deref p in
  update_cell p (with_pointee (scale_coeffs alpha)).

(** [*p += alpha * *q] *)
Definition eigen_add_scaled (p : nat) (alpha : ScalarImp) (q : nat) : M unit :=
  let* x := deref q in
  let* c := deref p in
  do assert (Nat.eqb (b_rows (pointee x)) (b_rows (pointee c))
             && Nat.eqb (b_cols (pointee x)) (b_cols (pointee c))) then
  update_cell p (with_pointee (add_scaled_coeffs alpha (pointee x))).

(** *** EigenDenseMatrix *)

(** [EigenDenseMatrix(rr, cc)], the fill value left at its default
    [ScalarType(0)]: a new object on a zero backend of its own. *)
Definition EigenDenseMatrix_new (rr cc : nat) : M nat :=
  let* p := make_shared {| b_rows := rr; b_cols := cc; coeff := fun _ _ => scalar_0 |} in
  fun s => (inr (length (objs s)), {| heap := heap s; objs := objs s ++ [p] |}).

(** [ThisType& operator=(const ThisType& other)] *)
Definition operator_assign (this other : nat) : M unit :=
  let* p := backend_ptr other in
  shared_ptr_copy_assign this p.

Definition ensure_uniqueness (this : nat) : M unit :=
  let* u := unique this in
  if u then ret tt
  else
    let* p := backend_ptr this in
    let* c := deref p in
    let* p' := make_shared (pointee c) in
    shared_ptr_move_assign this p'.

(** [BackendType& backend()] *)
Definition backend (this : nat) : M nat :=
  do ensure_uniqueness this then
  backend_ptr this.

Definition rows (this : nat) : M nat :=
  let* p := backend_ptr this in
  let* c := deref p in
  ret (b_rows (pointee c)).

Definition cols (this : nat) : M nat :=
  let* p := backend_ptr this in
  let* c := deref p in
  ret (b_cols (pointee c)).

Definition scal (this : nat) (alpha : ScalarImp) : M unit :=
  let* p := backend this in
  eigen_scale p alpha.

Definition has_equal_shape (this other : nat) : M bool :=
  let* r := rows this in
  let* r' := rows other in
  let* c := cols this in
  let* c' := cols other in
  ret (Nat.eqb r r' && Nat.eqb c c').

Definition shape_message (xr xc r c : nat) : string :=
  ("The shape of xx (" ++ show_size_t xr ++ "x" ++ show_size_t xc
    ++ ") does not match the shape of this (" ++ show_size_t r ++ "x"
    ++ show_size_t c ++ ")!")%string.

Definition axpy (this : nat) (alpha : ScalarImp) (xx : nat) : M unit :=
  let* eq := has_equal_shape this xx in
  if negb eq then
    let* xr := rows xx in
    let* xc := cols xx in
    let* r := rows this in
    let* c := cols this in
    DUNE_THROW (shapes_do_not_match (shape_message xr xc r c))
  else
    let* xx_ref := backend_ptr xx in
    let* p := backend this in
    eigen_add_scaled p alpha xx_ref.

Definition add_to_entry (this ii jj : nat) (value : ScalarImp) : M unit :=
  let* r := rows this in
  do assert (Nat.ltb ii r) then
  let* c := cols this in
  do assert (Nat.ltb jj c) then
  let* p := backend this in
  let* old := eigen_get p ii jj in
  eigen_set p ii jj (plus old value).

Definition set_entry (this ii jj : nat) (value : ScalarImp) : M unit :=
  let* r := rows this in
  do assert (Nat.ltb ii r) then
  let* c := cols this in
  do assert (Nat.ltb jj c) then
  let* p := backend this in
  eigen_set p ii jj value.

Definition get_entry (this ii jj : nat) : M ScalarImp :=
  let* r := rows this in
  do assert (Nat.ltb ii r) then
  let* c := cols this in
  do assert (Nat.ltb jj c) then
  let* p := backend_ptr this in
  eigen_get p ii jj.

Definition row_message (ii r : nat) : string :=
  ("Given ii (" ++ show_size_t ii ++ ") is larger than the rows of this ("
    ++ show_size_t r ++ ")!")%string.

Definition col_message (jj c : nat) : string :=
  ("Given jj (" ++ show_size_t jj ++ ") is larger than the cols of this ("
    ++ show_size_t c ++ ")!")%string.

Definition clear_row (this ii : nat) : M unit :=
  let* r := rows this in
  if Nat.leb r ii then DUNE_THROW (index_out_of_range (row_message ii r))
  else
    do ensure_uniqueness this then
    let* c := cols this in
    for_upto c (fun jj =>
      let* p := backend_ptr this in eigen_set p ii jj scalar_0).

Definition clear_col (this jj : nat) : M unit :=
  let* c := cols this in
  if Nat.leb c jj then DUNE_THROW (index_out_of_range (col_message jj c))
  else
    do ensure_uniqueness this then
    let* r := rows this in
    for_upto r (fun ii =>
      let* p := backend_ptr this in eigen_set p ii jj scalar_0).

Definition unit_row (this ii : nat) : M unit :=
  let* r := rows this in
  if Nat.leb r ii then DUNE_THROW (index_out_of_range (row_message ii r))
  else
    do ensure_uniqueness this then
    let* c := cols this in
    do for_upto c (fun jj =>
         let* p := backend_ptr this in eigen_set p ii jj scalar_0) then
    let* p := backend_ptr this in
    eigen_set p ii ii scalar_1.

Definition unit_col (this jj : nat) : M unit :=
  let* c := cols this in
  if Nat.leb c jj then DUNE_THROW (index_out_of_range (col_message jj c))
  else
    do ensure_uniqueness this then
    let* r := rows this in
    do for_upto r (fun ii =>
         let* p := backend_ptr this in eigen_set p ii jj scalar_0) then
    let* p := backend_ptr this in
    eigen_set p jj jj scalar_1.

(** *** Vocabulary of the statements *)

(** The matrix an object currently denotes. *)
Definition backend_of (s : State) (x : nat) : option BackendType :=
  match objs s !! x with
  | Some p => match heap s !! p with
              | Some c => Some (pointee c)
              | None => None
              end
  | None => None
  end.

(** The number of objects whose [backend_] is the address [p]. *)
Fixpoint holders (os : list nat) (p : nat) : nat :=
  match os with
  | [] => 0
  | q :: os' => (if Nat.eqb q p then 1 else 0) + holders os' p
  end.

Definition use_count_at (s : State) (p : nat) : nat :=
  match heap s !! p with
  | Some c => use_count c
  | None => 0
  end.

(** The reference counts are sound: every [backend_] points into the
    store, and a control block counts at least the objects that hold it
    (other [shared_ptr]s to the block may exist outside of the objects). *)
Definition well_formed (s : State) : bool :=
  forallb (fun p => Nat.ltb p (length (heap s))) (objs s)
  && forallb (fun p => Nat.leb (holders (objs s) p) (use_count_at s p))
       (seq 0 (length (heap s))).

(** The three mutating calls of the copy-on-write property. *)
Inductive mutation : Type :=
| SetEntry (ii jj : nat) (value : ScalarImp)
| AddToEntry (ii jj : nat) (value : ScalarImp)
| Scal (alpha : ScalarImp).

Definition run_mutation (this : nat) (m : mutation) : M unit :=
  match m with
  | SetEntry ii jj value => set_entry this ii jj value
  | AddToEntry ii jj value => add_to_entry this ii jj value
  | Scal alpha => scal this alpha
  end.

(** What a mutation does to the matrix it is applied to. *)
Definition apply_mutation (b : BackendType) (m : mutation) : BackendType :=
  match m with
  | SetEntry ii jj value => set_coeff b ii jj value
  | AddToEntry ii jj value => set_coeff b ii jj (plus (coeff b ii jj) value)
  | Scal alpha => scale_coeffs alpha b
  end.

(** The indices of a mutation respect the shape [r] x [c]. *)
Definition mutation_in_shape (r c : nat) (m : mutation) : bool :=
  match m with
  | SetEntry ii jj _ | AddToEntry ii jj _ => Nat.ltb ii r && Nat.ltb jj c
  | Scal _ => true
  end.

(** A sequence of calls, each on one of two objects: [(true, m)] is [m]
    on the first, [(false, m)] is [m] on the second. *)
Fixpoint run_mutations (a b : nat) (ms : list (bool * mutation)) : M unit :=
  match ms with
  | [] => ret tt
  | (on_a, m) :: ms' =>
      do run_mutation (if on_a then a else b) m then
      run_mutations a b ms'
  end.

(** The calls of a sequence that went to the first ([true]) or the second
    ([false]) object. *)
Definition calls_on (side : bool) (ms : list (bool * mutation)) : list mutation :=
  map snd (List.filter (fun tm => Bool.eqb (fst tm) side) ms).

(** The invariant as a proposition; [well_formed] decides it. *)
Definition WF (s : State) : Prop :=
  (forall x p, objs s !! x = Some p -> p < length (heap s))
  /\ (forall p c, heap s !! p = Some c -> holders (objs s) p <= use_count c).

(** Every block of [s] is still there in [s'] and manages the same
    matrix. *)
Definition preserved (s s' : State) : Prop :=
  forall q c0, heap s !! q = Some c0 ->
    exists c1, heap s' !! q = Some c1 /\ pointee c1 = pointee c0.

(** The object [x] is the only holder of the block at [p], whose use count
    is one and which manages the matrix [v]. *)
Definition owns (s : State) (x p : nat) (v : BackendType) : Prop :=
  objs s !! x = Some p
  /\ heap s !! p = Some {| pointee := v; use_count := 1 |}
  /\ (forall y, y <> x -> objs s !! y <> Some p).

(** [k] writes [f] in place to the block that [x] holds, whenever that
    block manages [v] and the blocks of [s] are still there. *)
Definition acts_in_place (s : State) (x : nat) (v : BackendType) (k : M unit)
    (f : BackendType -> BackendType) : Prop :=
  forall s0 p c0,
    objs s0 !! x = Some p -> heap s0 !! p = Some c0 -> pointee c0 = v ->
    preserved s s0 ->
    k s0 = (inr tt, {| heap := alter (with_pointee f) p (heap s0); objs := objs s0 |}).

(** The matrix left by a loop that stores [value] at the positions
    [(fi k, fj k)], [k] running through [ks]. *)
Definition set_all (fi fj : nat -> nat) (value : ScalarImp) (ks : list nat)
    (b : BackendType) : BackendType :=
  fold_left (fun b k => set_coeff b (fi k) (fj k) value) ks b.

(** The store before any object exists, and the store a program leaves. *)
Definition empty_state : State := {| heap := []; objs := [] |}.

Definition final_state {A} (m : M A) (s : State) : State := snd (m s).

(** Two objects made by [EigenDenseMatrix(r, c)] and
    [EigenDenseMatrix(r', c')], in this order: the objects [0] and [1]. *)
Definition two_objects (r c r' c' : nat) : State :=
  final_state
    (bind (EigenDenseMatrix_new r c) (fun _ => EigenDenseMatrix_new r' c'))
    empty_state.

Definition zero_backend (r c : nat) : BackendType :=
  {| b_rows := r; b_cols := c; coeff := fun _ _ => scalar_0 |}.

(** Every coefficient of [b] passes the test [P]. *)
Definition all_coeffs (P : ScalarImp -> bool) (b : BackendType) : bool :=
  forallb (fun i => forallb (fun j => P (coeff b i j)) (seq 0 (b_cols b)))
    (seq 0 (b_rows b)).
End EigenDenseMatrix.

(** *** Stores over [double] used to exercise the statements *)

(** Two 1 x 1 matrices: object [0] holds [1.0], object [1] holds
    [+infinity]. *)
Definition one_and_infinity : @State PrimFloat.float :=
  final_state
    (bind (set_entry 0 0 0 PrimFloat.one)
       (fun _ => set_entry 1 0 0 PrimFloat.infinity))
    (two_objects 1 1 1 1).

(** Two 1 x 1 matrices: object [0] holds [1.0], object [1] holds [2.0]. *)
Definition one_and_two : @State PrimFloat.float :=
  final_state
    (bind (set_entry 0 0 0 PrimFloat.one)
       (fun _ => set_entry 1 0 0 PrimFloat.two))
    (two_objects 1 1 1 1).

(** Calls on two objects: [b.set_entry(1, 1, 5.0)], [a.scal(2.0)],
    [b.add_to_entry(0, 1, 1.0)]. *)
Definition example_calls : list (bool * @mutation PrimFloat.float) :=
  [ (false, SetEntry 1 1 5%float);
    (true, Scal PrimFloat.two);
    (false, AddToEntry 0 1 PrimFloat.one) ].

(** *** Further members of EigenDenseMatrix *)

Section EigenDenseMatrix_members.
Context {ScalarImp : Type} `{ScalarType ScalarImp}.

(** A new object whose [backend_] is [p]. *)
Definition new_object (p : nat) : @M ScalarImp nat :=
  fun s => (inr (length (objs s)), {| heap := heap s; objs := objs s ++ [p] |}).

(** [explicit EigenDenseMatrix(const BackendType& other)]:
    [backend_(new BackendType(other))]. *)
Definition EigenDenseMatrix_from_backend (other : @BackendType ScalarImp) : @M ScalarImp nat :=
  bind (make_shared other) new_object.

(** [EigenDenseMatrix(const ThisType& other) = default]: the member
    [backend_] of the new object is a copy of [other.backend_], whose block
    gains an owner. *)
Definition EigenDenseMatrix_copy_construct (other : nat) : @M ScalarImp nat :=
  bind (backend_ptr other) (fun p =>
  bind (acquire p) (fun _ => new_object p)).

(** [ThisType copy() const]: a new object built from the matrix that
    [backend_] points to, by the constructor above. *)
Definition copy (this : nat) : @M ScalarImp nat :=
  bind (backend_ptr this) (fun p =>
  bind (deref p) (fun c =>
  EigenDenseMatrix_from_backend (pointee c))).

(** [ThisType& operator=(const BackendType& other)], which "does a deep
    copy": [backend_ = std::make_shared< BackendType >(other)]. *)
Definition operator_assign_backend (this : nat) (other : @BackendType ScalarImp) : @M ScalarImp unit :=
  bind (make_shared other) (shared_ptr_move_assign this).

(** [ScalarType* data() { return backend_->data(); }]: the address of the
    block that [backend_] points to. *)
Definition data (this : nat) : @M ScalarImp nat := backend_ptr this.

(** The calls on the objects of a store. *)
Inductive call : Type :=
| New (rr cc : nat)
| CopyConstruct (other : nat)
| Copy (this : nat)
| Assign (this other : nat)
| AssignBackend (this : nat) (other : @BackendType ScalarImp)
| Mutate (this : nat) (m : @mutation ScalarImp)
| Axpy (this : nat) (alpha : ScalarImp) (xx : nat)
| ClearRow (this ii : nat)
| ClearCol (this jj : nat)
| UnitRow (this ii : nat)
| UnitCol (this jj : nat).

Definition run_call (c : call) : @M ScalarImp unit :=
  match c with
  | New rr cc => bind (EigenDenseMatrix_new rr cc) (fun _ => ret tt)
  | CopyConstruct other => bind (EigenDenseMatrix_copy_construct other) (fun _ => ret tt)
  | Copy this => bind (copy this) (fun _ => ret tt)
  | Assign this other => operator_assign this other
  | AssignBackend this other => operator_assign_backend this other
  | Mutate this m => run_mutation this m
  | Axpy this alpha xx => axpy this alpha xx
  | ClearRow this ii => clear_row this ii
  | ClearCol this jj => clear_col this jj
  | UnitRow this ii => unit_row this ii
  | UnitCol this jj => unit_col this jj
  end.

Fixpoint run_calls (cs : list call) : @M ScalarImp unit :=
  match cs with
  | [] => ret tt
  | c :: cs' => bind (run_call c) (fun _ => run_calls cs')
  end.

(** The object [x] is the only holder of its backend. *)
Definition sole_owner (s : @State ScalarImp) (x : nat) : Prop :=
  exists p v, owns s x p v.

(** From [s] to [s'] no object was added or removed, and every object
    other than [x] denotes the matrix it denoted. *)
Definition others_unchanged (s s' : @State ScalarImp) (x : nat) : Prop :=
  length (objs s') = length (objs s)
  /\ forall y, y <> x -> backend_of s' y = backend_of s y.
End EigenDenseMatrix_members.

(** *** Stores and calls over [double] for the further members *)

(** A 3 x 2 matrix with the entry [5.0] at [(1, 1)], the object [0], and a
    2 x 3 matrix of zeros, the object [1]. *)
Definition tall_and_wide : @State PrimFloat.float :=
  final_state (set_entry 0 1 1 5%float) (two_objects 3 2 2 3).

Definition tall : @BackendType PrimFloat.float :=
  set_coeff (zero_backend 3 2) 1 1 5%float.

(** Two objects after [b = a]: the objects [0] and [1] hold one backend,
    a 2 x 2 matrix of zeros. *)
Definition shared_pair : @State PrimFloat.float :=
  final_state (operator_assign 1 0) (two_objects 2 2 2 2).

(** A program on the empty store: two constructions, a copy by the copy
    constructor, writes, a deep copy, an assignment, [axpy], and row and
    column members. *)
Definition example_program : list (@call PrimFloat.float) :=
  [ New 2 2; New 2 2; CopyConstruct 0;
    Mutate 2 (SetEntry 0 1 5%float);
    Copy 2; Assign 1 3;
    Axpy 0 PrimFloat.two 1;
    ClearRow 1 0; UnitCol 2 1; UnitRow 3 0; ClearCol 0 1;
    Mutate 3 (Scal PrimFloat.two);
    AssignBackend 0 (zero_backend 3 3) ].

(** *** SparsityPatternDefault *)

(** [std::set< unsigned int >] and
    [std::vector< std::set< unsigned int > >]. *)
Abbreviation SetType := (gset nat).
Abbreviation SparsityPatternDefault := (list (gset nat)).

Section SparsityPatternDefault.
Context {ElementType : Type} `{ScalarType ElementType}.


(** [SparsityPatternDefault(_size)]: [_size] empty rows. *)
Definition SparsityPatternDefault_new (_size : nat) : SparsityPatternDefault :=
  replicate _size ∅.

Definition size (p : SparsityPatternDefault) : nat := length p.

(** [set(_index)], guarded by [assert(_index < size())]. *)
Definition set (p : SparsityPatternDefault) (_index : nat) : option SetType :=
  p !! _index.

(** [a > b] on the element type. *)
Definition greater (a b : ElementType) : bool := less b a.

(** The inner loop of [createCompressedSparsityPattern]: the columns of
    the uncompressed row are visited one by one, and a column is inserted
    into the compressed row if the entry is large enough. *)
Definition compress_row (matrix_get : nat -> nat -> ElementType)
    (threshhold : ElementType) (row : nat)
    (uncompressedRowSet compressedRowSet : SetType) : SetType :=
  fold_left
    (fun compressedRowSet col =>
       let absValue := std_abs (matrix_get row col) in
       if greater absValue threshhold
       then {[ col ]} ∪ compressedRowSet
       else compressedRowSet)
    (elements uncompressedRowSet) compressedRowSet.

(** [createCompressedSparsityPattern(uncompressedPattern, matrix,
    threshhold)]; [None] is the failure of the assertion on the
    threshold. [matrix_get] is [matrix.get]. *)
Definition createCompressedSparsityPattern
    (uncompressedPattern : SparsityPatternDefault)
    (matrix_get : nat -> nat -> ElementType)
    (threshhold : ElementType) : option SparsityPatternDefault :=
  if less threshhold scalar_0 then None
  else
    Some (fold_left
            (fun compressedPattern row =>
               match set uncompressedPattern row with
               | Some uncompressedRowSet =>
                   alter (compress_row matrix_get threshhold row uncompressedRowSet)
                     row compressedPattern
               | None => compressedPattern
               end)
            (seq 0 (size uncompressedPattern))
            (SparsityPatternDefault_new (size uncompressedPattern))).
End SparsityPatternDefault.

(** A pattern with two rows, and the entries of the 2 x 2 identity. *)
Definition example_pattern : SparsityPatternDefault := [ {[ 0; 1 ]}; {[ 1 ]} ].

Definition identity_get (r c : nat) : PrimFloat.float :=
  if Nat.eqb r c then PrimFloat.one else PrimFloat.zero.
End LA.

(** ** Stuff (stuff/matrix.hh) *)

Module Stuff.
(** The template parameter [SparseMatrixImpl]: the members the two
    functions call. *)
Class SparseMatrix (SparseMatrixImpl : Type) := {
  m_rows : SparseMatrixImpl -> nat;
  m_cols : SparseMatrixImpl -> nat;
  (* matrix.find(i, j) *)
  m_find : SparseMatrixImpl -> nat -> nat -> bool;
  (* matrix(i, j) *)
  m_at : SparseMatrixImpl -> nat -> nat -> float;
  (* matrix.clear() *)
  m_clear : SparseMatrixImpl -> SparseMatrixImpl;
  (* matrix.add(r, c, v), called with three doubles *)
  m_add : SparseMatrixImpl -> float -> float -> float -> SparseMatrixImpl
}.

(** How [readSparseMatrix] can end without a matrix. *)
Inductive failure : Type :=
| AssertionFailed        (* assert(entryLine.size()==3) *)
| OutOfRange             (* entryLine[k] beyond the end of the vector *)
| OutOfFuel.             (* the bound on the iterations was too small *)

Section readSparseMatrix.
Context {SparseMatrixImpl : Type} `{SparseMatrix SparseMatrixImpl}.

(** [in >> temp] on a [std::istringstream] over [subs]: the new value of
    [temp], given the text and the old value. The conversion is the stream
    library's. *)
Variable extract : list ascii -> float -> float.

Definition comma : ascii := ","%char.
Definition newline : ascii := ascii_of_nat 10.

(** The position of the first [ch] in [l]. *)
Fixpoint index_of (ch : ascii) (l : list ascii) : option nat :=
  match l with
  | [] => None
  | c :: l' => if Ascii.eqb c ch then Some 0 else option_map S (index_of ch l')
  end.

(** [row.find_first_of(ch, pos)]; [None] is [std::string::npos]. *)
Definition find_first_of (row : list ascii) (ch : ascii) (pos : nat) : option nat :=
  option_map (fun k => pos + k) (index_of ch (drop pos row)).

(** [row.substr(pos, n)], for [pos <= row.size()]. *)
Definition substr (row : list ascii) (pos n : nat) : list ascii :=
  take n (drop pos row).

(** The [do ... while] loop over one row. One unfolding is one pass
    through the body; the state is [last_found], [found], [temp] and
    [entryLine]. ([found] is never before [last_found], so the difference
    passed to [substr] does not wrap around.) *)
Fixpoint tokens_loop (fuel : nat) (row : list ascii) (last_found : nat)
    (found : option nat) (temp : float) (entryLine : list float)
    : option (list float) :=
  match fuel with
  | 0 => None
  | S fuel' =>
      let found := match found with None => length row | Some f => f end in
      let subs := substr row last_found (found - last_found) in
      let last_found := found + 1 in
      let temp := extract subs temp in
      let entryLine := entryLine ++ [temp] in
      let found := find_first_of row comma last_found in
      if Nat.eqb last_found (length row + 1) then Some entryLine
      else tokens_loop fuel' row last_found found temp entryLine
  end.

(** *** writeSparseMatrix *)

(** [out << x] for a [double] [x], once [out.precision(12)] and
    [out.setf(std::ios::scientific)] are in force. The conversion is the
    stream library's. *)
Variable show_double : float -> list ascii.




(** *** readSparseMatrix, continued *)

(** The body of the [while] loop up to the assertion: the vector
    [entryLine] read from [row]. [temp] is declared without a value. *)
Definition read_row (temp : float) (row : list ascii) : option (list float) :=
  tokens_loop (S (length row)) row 0 (find_first_of row comma 0) temp [].

(** The rows that successive calls of [std::getline(in, row)] deliver. *)
Fixpoint getlines (cur : list ascii) (input : list ascii) : list (list ascii) :=
  match input with
  | [] => match cur with [] => [] | _ => [rev cur] end
  | c :: input' =>
      if Ascii.eqb c newline then rev cur :: getlines [] input'
      else getlines (c :: cur) input'
  end.

(** One pass through the [while] loop. [ndebug] tells whether the
    assertion is compiled out. *)
Definition process_row (ndebug : bool) (temp : float) (matrix : SparseMatrixImpl)
    (row : list ascii) : failure + SparseMatrixImpl :=
  match read_row temp row with
  | None => inl OutOfFuel
  | Some entryLine =>
      if ndebug || Nat.eqb (length entryLine) 3 then
        match entryLine with
        | e0 :: e1 :: e2 :: _ => inr (m_add matrix e0 e1 e2)
        | _ => inl OutOfRange
        end
      else inl AssertionFailed
  end.

Definition readSparseMatrix (ndebug : bool) (temp : float)
    (matrix : SparseMatrixImpl) (input : list ascii)
    : failure + SparseMatrixImpl :=
  fold_left
    (fun acc row =>
       match acc with
       | inr matrix => process_row ndebug temp matrix row
       | inl e => inl e
       end)
    (getlines [] input) (inr (m_clear matrix)).

(** *** Vocabulary of the statements *)

(** The text of fields separated by commas. *)
Fixpoint join_fields (fields : list (list ascii)) : list ascii :=
  match fields with
  | [] => []
  | [f] => f
  | f :: fields' => f ++ comma :: join_fields fields'
  end.

(** The values extracted from the fields, one after the other into the
    same [temp]. *)
Fixpoint extract_all (temp : float) (fields : list (list ascii)) : list float :=
  match fields with
  | [] => []
  | f :: fields' => extract f temp :: extract_all (extract f temp) fields'
  end.

Definition comma_free (f : list ascii) : bool :=
  forallb (fun c => negb (Ascii.eqb c comma)) f.

Definition newline_free (f : list ascii) : bool :=
  forallb (fun c => negb (Ascii.eqb c newline)) f.



(** The fields of a row, split at the commas. *)
Fixpoint split_fields (row : list ascii) : list (list ascii) :=
  match row with
  | [] => [[]]
  | c :: row' =>
      if Ascii.eqb c comma then [] :: split_fields row'
      else match split_fields row' with
           | f :: fields => (c :: f) :: fields
           | [] => [[c]]
           end
  end.
End readSparseMatrix.

(** *** A matrix to run the functions on *)

(** [double] to [int], for the values that are small natural numbers. *)
Definition double_to_nat (x : float) : nat :=
  match Prim2SF x with
  | S754_finite false m e => Z.to_nat (Z.shiftl (Zpos m) e)
  | _ => 0
  end.

(** A sparse matrix as a finite map from the positions of its entries. *)
Record MapMatrix : Type := {
  mm_rows : nat;
  mm_cols : nat;
  mm_entries : gmap (nat * nat) float
}.

#[export] Instance MapMatrix_SparseMatrix : SparseMatrix MapMatrix := {|
  m_rows := mm_rows;
  m_cols := mm_cols;
  m_find m i j := bool_decide (is_Some (mm_entries m !! (i, j)));
  m_at m i j := default PrimFloat.zero (mm_entries m !! (i, j));
  m_clear m := {| mm_rows := mm_rows m; mm_cols := mm_cols m; mm_entries := ∅ |};
  m_add m r c v :=
    let k := (double_to_nat r, double_to_nat c) in
    {| mm_rows := mm_rows m; mm_cols := mm_cols m;
       mm_entries :=
         <[ k := PrimFloat.add (default PrimFloat.zero (mm_entries m !! k)) v ]>
           (mm_entries m) |}
|}.

Definition empty_matrix (r c : nat) : MapMatrix :=
  {| mm_rows := r; mm_cols := c; mm_entries := ∅ |}.


End Stuff.

(* ===================================================================== *)
(** * Part II: the properties                                             *)
(* ===================================================================== *)

Section wraparound_array_facts.
Import Common.
Local Open Scope Z_scope.

Lemma real_index_int_neg (N i : Z) :
  0 < N -> N <= CInt.INT_MAX -> CInt.INT_MIN < i -> i < 0 ->
  real_index_int N i = Some (N - 1 - (- i) mod N).
Proof.
  intros HN HNmax Hmin Hneg.
  unfold real_index_int, CInt.mul, CInt.rem, CInt.add, CInt.sub, CInt.checked,
    CInt.is_int, CInt.to_size_t, CInt.INT_MIN, CInt.INT_MAX, CInt.SIZE_MOD in *.
  assert (Hm : i * -1 = - i) by lia.
  assert (Hr : Z.rem (- i) N = (- i) mod N) by (apply Z.rem_mod_nonneg; lia).
  pose proof (Z.mod_pos_bound (- i) N HN) as Hb.
  destruct (Z.ltb_spec i 0); [|lia].
  rewrite Hm.
  destruct (Z.leb_spec (- 2 ^ 31) (- i)); [|lia].
  destruct (Z.leb_spec (- i) (2 ^ 31 - 1)); [|lia].
  cbn [andb].
  destruct (Z.eqb_spec N 0); [lia|].
  rewrite Hr.
  destruct (Z.leb_spec (- 2 ^ 31) ((- i) mod N)); [|lia].
  destruct (Z.leb_spec ((- i) mod N) (2 ^ 31 - 1)); [|lia].
  cbn [andb].
  destruct (Z.leb_spec (- 2 ^ 31) ((- i) mod N + 1)); [|lia].
  destruct (Z.leb_spec ((- i) mod N + 1) (2 ^ 31 - 1)); [|lia].
  cbn [andb].
  destruct (Z.leb_spec (- 2 ^ 31) (N - ((- i) mod N + 1))); [|lia].
  destruct (Z.leb_spec (N - ((- i) mod N + 1)) (2 ^ 31 - 1)); [|lia].
  cbn [andb].
  f_equal. rewrite Z.mod_small; lia.
Qed.


(** A non-negative [int] index is used as it is. *)
Lemma real_index_int_nonneg (N i : Z) :
  0 <= i -> i <= CInt.INT_MAX -> real_index_int N i = Some i.
Proof.
  intros H0 Hmax. unfold real_index_int, CInt.to_size_t, CInt.SIZE_MOD, CInt.INT_MAX in *.
  destruct (Z.ltb_spec i 0); [lia|]. f_equal. apply Z.mod_small. lia.
Qed.

(** So an [int] index from [N] on is outside of the array. *)
Lemma subscript_int_beyond {T} (N i : Z) (a : list T) :
  N <= i -> i <= CInt.INT_MAX -> 0 <= N -> subscript_int N a i = None.
Proof.
  intros HN Hmax H0. unfold subscript_int.
  rewrite real_index_int_nonneg by lia. unfold BaseType_subscript.
  destruct (Z.ltb_spec i N); [lia|]. by rewrite andb_false_r.
Qed.

(** A negative [int] index selects the position before the one that wrapping
    around would give. *)
Lemma real_index_int_neg_shifted (N i : Z) :
  0 < N -> N <= CInt.INT_MAX -> CInt.INT_MIN < i -> i < 0 ->
  real_index_int N i = Some ((i mod N + N - 1) mod N).
Proof.
  intros HN HNmax Hmin Hneg.
  rewrite real_index_int_neg by done. f_equal.
  pose proof (Z.mod_pos_bound i N HN) as Hb.
  pose proof (Z.mod_pos_bound (- i) N HN) as Hb'.
  destruct (Z.eq_dec (i mod N) 0) as [Hz|Hnz].
  - rewrite Z.mod_opp_l_z by lia.
    rewrite Hz. rewrite (Z.mod_small (0 + N - 1) N) by lia. lia.
  - rewrite Z.mod_opp_l_nz by lia.
    replace (i mod N + N - 1) with ((i mod N - 1) + 1 * N) by lia.
    rewrite Z.mod_add by lia. rewrite (Z.mod_small (i mod N - 1) N) by lia. lia.
Qed.

(** C9: the code against the claim (and against the comment above the class,
    which gives [wraparound_array[4] == wraparound_array[0]] and
    [wraparound_array[-1] == wraparound_array[3]] for [N = 4]). For [N = 4]
    and the [int] overload, which is the one an integer literal selects,
    index [-1] reads position 2, not 3, index [-4] reads position 3, not 0,
    and index [4] is outside of the array; only the [std::size_t] overload
    wraps index [4] to position 0. *)
Theorem wraparound_array_int_subscript {T} (a0 a1 a2 a3 : T) :
  subscript_int 4 [a0; a1; a2; a3] (-1) = Some a2
  /\ subscript_int 4 [a0; a1; a2; a3] (-4) = Some a3
  /\ subscript_int 4 [a0; a1; a2; a3] 4 = None
  /\ subscript_size_t 4 [a0; a1; a2; a3] 4 = Some a0.
Proof. repeat split. Qed.

End wraparound_array_facts.

(** ** getIdx and the subscripts of wraparound_array *)

Section getIdx_facts.
Import Common.
Context {value_type : Type} `{EqDecision value_type}.



End getIdx_facts.

Section wraparound_more.
Import Common.
Local Open Scope Z_scope.


(** X16. The [int] subscript of [wraparound_array]. For an array of [N]
    elements, [0 < N]: a negative index [i] (above [INT_MIN]) reads the
    element at position [N - 1 - ((-i) mod N)], which exists; an index
    [0 <= i < N] reads the element at position [i]; and an index [i >= N]
    is handed to the array as it is, beyond its end. *)
Theorem subscript_int_positions {T} (N i : Z) (a : list T) :
  0 < N -> N <= CInt.INT_MAX -> Z.of_nat (length a) = N ->
  CInt.INT_MIN < i -> i <= CInt.INT_MAX ->
  (i < 0 ->
     exists x, subscript_int N a i = Some x
       /\ nth_error a (Z.to_nat (N - 1 - (- i) mod N)) = Some x)
  /\ (0 <= i -> i < N ->
        exists x, subscript_int N a i = Some x /\ nth_error a (Z.to_nat i) = Some x)
  /\ (N <= i -> real_index_int N i = Some i /\ subscript_int N a i = None).
Proof.
  intros HN Hmax Hlen Hmin Himax. split; [|split].
  - intros Hneg. pose proof (Z.mod_pos_bound (- i) N HN) as Hb.
    unfold subscript_int. rewrite real_index_int_neg by done.
    unfold BaseType_subscript.
    destruct (Z.leb_spec 0 (N - 1 - (- i) mod N)); [|lia].
    destruct (Z.ltb_spec (N - 1 - (- i) mod N) N); [|lia]. simpl.
    destruct (nth_error a (Z.to_nat (N - 1 - (- i) mod N))) as [x|] eqn:Hx;
      [by exists x|].
    apply nth_error_None in Hx. lia.
  - intros H0 Hlt. unfold subscript_int. rewrite real_index_int_nonneg by done.
    unfold BaseType_subscript.
    destruct (Z.leb_spec 0 i); [|lia]. destruct (Z.ltb_spec i N); [|lia]. simpl.
    destruct (nth_error a (Z.to_nat i)) as [x|] eqn:Hx; [by exists x|].
    apply nth_error_None in Hx. lia.
  - intros Hge. split; [apply real_index_int_nonneg; lia|].
    apply subscript_int_beyond; lia.
Qed.
End wraparound_more.


(** ** EigenDenseMatrix *)

Section EigenDenseMatrix_facts.
Import LA.
Context {ScalarImp : Type} `{ScalarType ScalarImp}.
Implicit Types (s : @State ScalarImp) (v : @BackendType ScalarImp) (c : @Cell ScalarImp).

(** **** Counting the holders of an address *)

Lemma holders_insert (os : list nat) (x p q r : nat) :
  os !! x = Some p ->
  holders (<[x := q]> os) r + (if Nat.eqb p r then 1 else 0)
  = holders os r + (if Nat.eqb q r then 1 else 0).
Proof.
  revert x. induction os as [|o os IH]; intros [|x] Hx; simplify_eq/=.
  - lia.
  - specialize (IH _ Hx). lia.
Qed.

Lemma holders_pos (os : list nat) (x p : nat) :
  os !! x = Some p -> 1 <= holders os p.
Proof.
  revert x. induction os as [|o os IH]; intros [|x] Hx; simplify_eq/=.
  - rewrite Nat.eqb_refl. lia.
  - specialize (IH _ Hx). lia.
Qed.

Lemma holders_two (os : list nat) (x y p : nat) :
  x <> y -> os !! x = Some p -> os !! y = Some p -> 2 <= holders os p.
Proof.
  revert x y. induction os as [|o os IH]; intros [|x] [|y] Hne Hx Hy; simplify_eq/=.
  - rewrite Nat.eqb_refl. pose proof (holders_pos _ _ _ Hy). lia.
  - rewrite Nat.eqb_refl. pose proof (holders_pos _ _ _ Hx). lia.
  - assert (x <> y) by congruence. specialize (IH _ _ H0 Hx Hy). lia.
Qed.

Lemma holders_none (os : list nat) (p : nat) :
  (forall x, os !! x <> Some p) -> holders os p = 0.
Proof.
  induction os as [|o os IH]; intros Hno; simpl; [done|].
  destruct (Nat.eqb_spec o p) as [->|_].
  - exfalso. apply (Hno 0). done.
  - rewrite IH; [done|]. intros x. apply (Hno (S x)).
Qed.

Lemma holders_app (os os' : list nat) (p : nat) :
  holders (os ++ os') p = holders os p + holders os' p.
Proof. induction os as [|o os IH]; simpl; lia. Qed.

(** **** The invariant, as a proposition *)

Lemma well_formed_WF s : well_formed s = true <-> WF s.
Proof.
  unfold well_formed, WF. rewrite andb_true_iff, !forallb_forall. split.
  - intros [H1 H2]. split.
    + intros x p Hx. apply Nat.ltb_lt, H1. apply list_elem_of_In.
      eapply list_elem_of_lookup_2; eauto.
    + intros p c Hp. pose proof (lookup_lt_Some _ _ _ Hp) as Hlt.
      specialize (H2 p). unfold use_count_at in H2. rewrite Hp in H2.
      apply Nat.leb_le, H2. apply in_seq. lia.
  - intros [H1 H2]. split.
    + intros p Hin. apply list_elem_of_In, list_elem_of_lookup in Hin as [x Hx].
      apply Nat.ltb_lt. eauto.
    + intros p Hin. apply in_seq in Hin. unfold use_count_at.
      destruct (lookup_lt_is_Some_2 (heap s) p) as [c Hc]; [lia|].
      rewrite Hc. apply Nat.leb_le. eauto.
Qed.

(** **** Running the primitives *)

Lemma bind_assoc {A B C} (m : M A) (f : A -> M B) (g : B -> M C) s :
  bind (bind m f) g s = bind m (fun x => bind (f x) g) s.
Proof. unfold bind. destruct (m s) as [[e|x] s']; [done|]. done. Qed.

Lemma run_backend_ptr s x p :
  objs s !! x = Some p -> backend_ptr x s = (inr p, s).
Proof. unfold backend_ptr. by intros ->. Qed.

Lemma run_deref s p c :
  heap s !! p = Some c -> deref p s = (inr c, s).
Proof. unfold deref. by intros ->. Qed.

Lemma run_rows s x v :
  backend_of s x = Some v -> rows x s = (inr (b_rows v), s).
Proof.
  unfold backend_of, rows, bind, backend_ptr, deref, ret.
  destruct (objs s !! x) as [p|]; [|done].
  destruct (heap s !! p) as [c|]; [|done]. by intros [= <-].
Qed.

Lemma run_cols s x v :
  backend_of s x = Some v -> cols x s = (inr (b_cols v), s).
Proof.
  unfold backend_of, cols, bind, backend_ptr, deref, ret.
  destruct (objs s !! x) as [p|]; [|done].
  destruct (heap s !! p) as [c|]; [|done]. by intros [= <-].
Qed.

Lemma backend_of_Some s x v :
  backend_of s x = Some v <->
  exists p c, objs s !! x = Some p /\ heap s !! p = Some c /\ pointee c = v.
Proof.
  unfold backend_of. split.
  - destruct (objs s !! x) as [p|]; [|done].
    destruct (heap s !! p) as [c|] eqn:Hp; [|done]. intros [= <-]. by exists p, c.
  - intros (p & c & -> & -> & <-). done.
Qed.

(** **** [ensure_uniqueness] *)

Lemma ensure_uniqueness_self s x p c :
  objs s !! x = Some p -> heap s !! p = Some c ->
  exists s' p' c',
    ensure_uniqueness x s = (inr tt, s')
    /\ objs s' !! x = Some p'
    /\ heap s' !! p' = Some c'
    /\ pointee c' = pointee c
    /\ length (objs s') = length (objs s)
    /\ preserved s s'.
Proof.
  intros Hx Hp.
  unfold ensure_uniqueness, unique. rewrite bind_assoc.
  unfold bind at 1. rewrite (run_backend_ptr _ _ _ Hx).
  rewrite bind_assoc. unfold bind at 1. rewrite (run_deref _ _ _ Hp).
  unfold bind at 1, ret at 1.
  destruct (Nat.eqb (use_count c) 1).
  - exists s, p, c. repeat split; try done. intros q c0 ?. by exists c0.
  - unfold bind at 1. rewrite (run_backend_ptr _ _ _ Hx).
    unfold bind at 1. rewrite (run_deref _ _ _ Hp).
    unfold bind at 1, make_shared at 1, shared_ptr_move_assign.
    unfold bind at 1, backend_ptr at 1. simpl. rewrite Hx.
    unfold bind, release, update_cell, store_backend_. simpl.
    pose proof (lookup_lt_Some _ _ _ Hp) as Hplt.
    eexists _, (length (heap s)), _. split; [reflexivity|]. simpl.
    split; [|split; [|split; [|split]]].
    + apply list_lookup_insert_eq. eapply lookup_lt_Some; eauto.
    + rewrite list_lookup_alter_ne by lia.
      by rewrite lookup_app_r, Nat.sub_diag.
    + done.
    + apply length_insert.
    + intros q c0 Hq0. simpl.
      assert (q < length (heap s)) by (eapply lookup_lt_Some; eauto).
      destruct (decide (q = p)) as [->|Hqp].
      * rewrite list_lookup_alter_eq, lookup_app_l, Hq0 by done. simpl. eauto.
      * rewrite list_lookup_alter_ne, lookup_app_l, Hq0 by done. eauto.
Qed.

Lemma ensure_uniqueness_spec s x p c :
  WF s -> objs s !! x = Some p -> heap s !! p = Some c ->
  exists s' p',
    ensure_uniqueness x s = (inr tt, s')
    /\ WF s'
    /\ owns s' x p' (pointee c)
    /\ length (objs s') = length (objs s)
    /\ (forall y, y <> x -> objs s' !! y = objs s !! y)
    /\ preserved s s'.
Proof.
  intros [Hptr Hcnt] Hx Hp.
  unfold ensure_uniqueness, unique. rewrite bind_assoc.
  unfold bind at 1. rewrite (run_backend_ptr _ _ _ Hx).
  rewrite bind_assoc. unfold bind at 1. rewrite (run_deref _ _ _ Hp).
  unfold bind at 1, ret at 1.
  destruct (Nat.eqb_spec (use_count c) 1) as [Hone|Hmany].
  - exists s, p. split; [done|]. split; [done|].
    split; [|split; [done|split; [done|by intros q c0 ?; exists c0]]].
    split; [done|]. split.
    + destruct c as [v n]; simpl in *; by subst.
    + intros y Hy Hyp. pose proof (holders_two _ _ _ _ Hy Hyp Hx).
      specialize (Hcnt _ _ Hp). lia.
  - unfold bind at 1. rewrite (run_backend_ptr _ _ _ Hx).
    unfold bind at 1. rewrite (run_deref _ _ _ Hp).
    unfold bind at 1, make_shared at 1, shared_ptr_move_assign.
    unfold bind at 1, backend_ptr at 1. simpl. rewrite Hx.
    unfold bind, release, update_cell, store_backend_. simpl.
    pose proof (Hptr _ _ Hx) as Hplt.
    pose proof (holders_pos _ _ _ Hx) as Hpos.
    pose proof (Hcnt _ _ Hp) as Hpc.
    eexists _, (length (heap s)). split; [reflexivity|].
    assert (Hfresh : holders (objs s) (length (heap s)) = 0).
    { apply holders_none. intros y Hy. apply Hptr in Hy. lia. }
    split; [|split; [|split; [|split]]]; simpl.
    + split; simpl.
      * intros y q. rewrite length_alter, length_app. simpl.
        destruct (decide (y = x)) as [->|Hne].
        -- rewrite list_lookup_insert_eq by (eapply lookup_lt_Some; eauto).
           intros [= <-]. lia.
        -- rewrite list_lookup_insert_ne by done. intros Hy. apply Hptr in Hy. lia.
      * intros q c' Hq.
        pose proof (holders_insert (objs s) x p (length (heap s)) q Hx) as Hh.
        destruct (decide (q = p)) as [->|Hqp].
        -- rewrite list_lookup_alter_eq, lookup_app_l, Hp in Hq by done.
           simpl in Hq. injection Hq as <-. simpl.
           rewrite Nat.eqb_refl in Hh.
           destruct (Nat.eqb_spec (length (heap s)) p); lia.
        -- rewrite list_lookup_alter_ne in Hq by done.
           destruct (Nat.eqb_spec p q); [congruence|].
           destruct (Nat.eqb_spec (length (heap s)) q) as [<-|Hlen].
           ++ rewrite lookup_app_r, Nat.sub_diag in Hq by done.
              injection Hq as <-. simpl. lia.
           ++ assert (q < length (heap s)).
              { apply lookup_lt_Some in Hq. rewrite length_app in Hq. simpl in Hq. lia. }
              rewrite lookup_app_l in Hq by done.
              specialize (Hcnt _ _ Hq). lia.
    + split; [|split].
      * simpl. apply list_lookup_insert_eq. eapply lookup_lt_Some; eauto.
      * simpl. rewrite list_lookup_alter_ne by lia.
        by rewrite lookup_app_r, Nat.sub_diag.
      * simpl. intros y Hy. rewrite list_lookup_insert_ne by done.
        intros Hyp. apply Hptr in Hyp. lia.
    + apply length_insert.
    + intros y Hy. by rewrite list_lookup_insert_ne.
    + intros q c0 Hq0. simpl.
      assert (q < length (heap s)) by (eapply lookup_lt_Some; eauto).
      destruct (decide (q = p)) as [->|Hqp].
      * rewrite list_lookup_alter_eq, lookup_app_l, Hq0 by done. simpl. eauto.
      * rewrite list_lookup_alter_ne, lookup_app_l, Hq0 by done. eauto.
Qed.

Lemma bind_ok {A B} (m : M A) (k : A -> M B) s x s' :
  m s = (inr x, s') -> bind m k s = k x s'.
Proof. unfold bind. by intros ->. Qed.

Lemma bind_fail {A B} (m : M A) (k : A -> M B) s e s' :
  m s = (inl e, s') -> bind m k s = (inl e, s').
Proof. unfold bind. by intros ->. Qed.

Lemma owns_backend_of s x p v : owns s x p v -> backend_of s x = Some v.
Proof. intros (Hx & Hp & _). unfold backend_of. by rewrite Hx, Hp. Qed.

(** Writing through the only holder of a block changes what that holder
    denotes and nothing else. *)
Lemma update_owned s x p v (f : BackendType -> BackendType) :
  WF s -> owns s x p v ->
  let s' := {| heap := alter (with_pointee f) p (heap s); objs := objs s |} in
  WF s' /\ owns s' x p (f v)
  /\ (forall y, y <> x -> backend_of s' y = backend_of s y).
Proof.
  intros [Hptr Hcnt] (Hx & Hp & Hex). simpl. split; [|split].
  - split; simpl.
    + intros y q Hy. rewrite length_alter. eauto.
    + intros q c Hq. destruct (decide (q = p)) as [->|Hne].
      * rewrite list_lookup_alter_eq, Hp in Hq. injection Hq as <-. simpl.
        apply (Hcnt _ _ Hp).
      * rewrite list_lookup_alter_ne in Hq by done. eauto.
  - split; [done|]. split; [|done]. simpl.
    by rewrite list_lookup_alter_eq, Hp.
  - intros y Hy. unfold backend_of. simpl.
    destruct (objs s !! y) as [q|] eqn:Hq; [|done].
    assert (q <> p) by (intros ->; by apply (Hex y)).
    by rewrite list_lookup_alter_ne.
Qed.

(** What a mutating member does to the object it is called on. *)
Lemma mutate_self s x v (k : M unit) (f : BackendType -> BackendType) :
  backend_of s x = Some v ->
  acts_in_place s x v k f ->
  exists s',
    bind (ensure_uniqueness x) (fun _ => k) s = (inr tt, s')
    /\ backend_of s' x = Some (f v)
    /\ length (objs s') = length (objs s).
Proof.
  intros Hv Hk.
  apply backend_of_Some in Hv as (p & c & Hx & Hp & <-).
  destruct (ensure_uniqueness_self s x p c Hx Hp)
    as (s1 & p1 & c1 & Hrun & Hx1 & Hp1 & Hc1 & Hlen & Hpres).
  rewrite (bind_ok _ _ _ _ _ Hrun), (Hk s1 p1 c1 Hx1 Hp1 Hc1 Hpres).
  eexists. split; [reflexivity|]. split; [|done].
  unfold backend_of. simpl. rewrite Hx1, list_lookup_alter_eq, Hp1. simpl.
  by rewrite Hc1.
Qed.

(** The common shape of the mutating members: make the backend private,
    then write to it in place. *)
Lemma mutate_spec s x v (k : M unit) (f : BackendType -> BackendType) :
  WF s -> backend_of s x = Some v ->
  acts_in_place s x v k f ->
  exists s',
    bind (ensure_uniqueness x) (fun _ => k) s = (inr tt, s')
    /\ WF s'
    /\ (exists p, owns s' x p (f v))
    /\ length (objs s') = length (objs s)
    /\ (forall y, y <> x -> backend_of s' y = backend_of s y).
Proof.
  intros Hwf Hv Hk.
  apply backend_of_Some in Hv as (p & c & Hx & Hp & <-).
  destruct (ensure_uniqueness_spec s x p c Hwf Hx Hp)
    as (s1 & p1 & Hrun & Hwf1 & Hown & Hlen & Hobjs & Hheap).
  rewrite (bind_ok _ _ _ _ _ Hrun).
  rewrite (Hk s1 p1 _ (proj1 Hown) (proj1 (proj2 Hown)) eq_refl Hheap).
  destruct (update_owned s1 x p1 (pointee c) f Hwf1 Hown) as (Hwf2 & Hown2 & Hothers).
  eexists. split; [reflexivity|]. split; [done|]. split; [eauto|]. split; [done|].
  intros y Hy. rewrite (Hothers y Hy). unfold backend_of.
  rewrite (Hobjs y Hy). destruct (objs s !! y) as [q|] eqn:Hq; [|done].
  destruct Hwf as [Hptr _]. destruct (lookup_lt_is_Some_2 (heap s) q) as [c0 Hc0]; [eauto|].
  assert (q <> p1).
  { intros ->. destruct Hown as (_ & _ & Hex). apply (Hex y Hy). by rewrite Hobjs. }
  destruct (Hheap q c0 Hc0) as (c1 & -> & Hpc). rewrite Hc0. by rewrite Hpc.
Qed.

Lemma run_eigen_set s p c i j value :
  heap s !! p = Some c -> in_shape (pointee c) i j = true ->
  eigen_set p i j value s
  = (inr tt, {| heap := alter (with_pointee (fun b => set_coeff b i j value)) p (heap s);
                objs := objs s |}).
Proof.
  intros Hp Hin. unfold eigen_set.
  rewrite (bind_ok _ _ _ _ _ (run_deref _ _ _ Hp)), Hin. done.
Qed.

Lemma run_eigen_get s p c i j :
  heap s !! p = Some c -> in_shape (pointee c) i j = true ->
  eigen_get p i j s = (inr (coeff (pointee c) i j), s).
Proof.
  intros Hp Hin. unfold eigen_get.
  rewrite (bind_ok _ _ _ _ _ (run_deref _ _ _ Hp)), Hin. done.
Qed.

Lemma run_get_entry s x v i j :
  backend_of s x = Some v -> i < b_rows v -> j < b_cols v ->
  get_entry x i j s = (inr (coeff v i j), s).
Proof.
  intros Hv Hi Hj. unfold get_entry.
  rewrite (bind_ok _ _ _ _ _ (run_rows _ _ _ Hv)).
  apply Nat.ltb_lt in Hi as Hi'. rewrite Hi'. unfold assert at 1.
  rewrite (bind_ok _ _ s tt s) by done.
  rewrite (bind_ok _ _ _ _ _ (run_cols _ _ _ Hv)).
  apply Nat.ltb_lt in Hj as Hj'. rewrite Hj'. unfold assert at 1.
  rewrite (bind_ok _ _ s tt s) by done.
  apply backend_of_Some in Hv as (p & c & Hx & Hp & <-).
  rewrite (bind_ok _ _ _ _ _ (run_backend_ptr _ _ _ Hx)).
  apply (run_eigen_get _ _ _ _ _ Hp). unfold in_shape. by rewrite Hi', Hj'.
Qed.

Lemma run_mutation_spec s x v (m : mutation) :
  WF s -> backend_of s x = Some v ->
  mutation_in_shape (b_rows v) (b_cols v) m = true ->
  exists s',
    run_mutation x m s = (inr tt, s')
    /\ WF s'
    /\ (exists p, owns s' x p (apply_mutation v m))
    /\ length (objs s') = length (objs s)
    /\ (forall y, y <> x -> backend_of s' y = backend_of s y).
Proof.
  intros Hwf Hv Hin. destruct m as [ii jj value|ii jj value|alpha]; simpl in *.
  - apply andb_true_iff in Hin as [Hi Hj].
    unfold set_entry.
    rewrite (bind_ok _ _ _ _ _ (run_rows _ _ _ Hv)), Hi. unfold assert at 1.
    rewrite (bind_ok _ _ s tt s) by done.
    rewrite (bind_ok _ _ _ _ _ (run_cols _ _ _ Hv)), Hj. unfold assert at 1.
    rewrite (bind_ok _ _ s tt s) by done.
    unfold backend. rewrite bind_assoc.
    apply (mutate_spec s x v _ (fun b => set_coeff b ii jj value) Hwf Hv).
    intros s0 p c0 Hx Hp <- _.
    rewrite (bind_ok _ _ _ _ _ (run_backend_ptr _ _ _ Hx)).
    apply (run_eigen_set _ _ _ _ _ _ Hp). unfold in_shape. simpl. by rewrite Hi, Hj.
  - apply andb_true_iff in Hin as [Hi Hj].
    unfold add_to_entry.
    rewrite (bind_ok _ _ _ _ _ (run_rows _ _ _ Hv)), Hi. unfold assert at 1.
    rewrite (bind_ok _ _ s tt s) by done.
    rewrite (bind_ok _ _ _ _ _ (run_cols _ _ _ Hv)), Hj. unfold assert at 1.
    rewrite (bind_ok _ _ s tt s) by done.
    unfold backend. rewrite bind_assoc.
    apply (mutate_spec s x v _
             (fun b => set_coeff b ii jj (plus (coeff v ii jj) value)) Hwf Hv).
    intros s0 p c0 Hx Hp <- _.
    assert (Hsh : in_shape (pointee c0) ii jj = true)
      by (unfold in_shape; by rewrite Hi, Hj).
    rewrite (bind_ok _ _ _ _ _ (run_backend_ptr _ _ _ Hx)).
    rewrite (bind_ok _ _ _ _ _ (run_eigen_get _ _ _ _ _ Hp Hsh)).
    apply (run_eigen_set _ _ _ _ _ _ Hp Hsh).
  - unfold scal, backend. rewrite bind_assoc.
    apply (mutate_spec s x v _ (scale_coeffs alpha) Hwf Hv).
    intros s0 p c0 Hx Hp _ _.
    rewrite (bind_ok _ _ _ _ _ (run_backend_ptr _ _ _ Hx)).
    unfold eigen_scale. by rewrite (bind_ok _ _ _ _ _ (run_deref _ _ _ Hp)).
Qed.

(** **** Assignment *)

Lemma operator_assign_spec s a b pa :
  WF s -> objs s !! a = Some pa -> b < length (objs s) ->
  exists s',
    operator_assign b a s = (inr tt, s')
    /\ WF s'
    /\ objs s' = <[b := pa]> (objs s)
    /\ (forall q, pointee <$> heap s' !! q = pointee <$> heap s !! q).
Proof.
  intros [Hptr Hcnt] Ha Hb.
  destruct (lookup_lt_is_Some_2 (objs s) b Hb) as [pb Hpb].
  unfold operator_assign, shared_ptr_copy_assign.
  rewrite (bind_ok _ _ _ _ _ (run_backend_ptr _ _ _ Ha)).
  unfold acquire at 1, update_cell at 1, bind at 1.
  unfold bind at 1, backend_ptr at 1. simpl. rewrite Hpb.
  unfold release, update_cell, store_backend_, bind. simpl.
  eexists. split; [reflexivity|]. split; [|split; [done|]]; simpl.
  - split; simpl.
    + intros y q. rewrite !length_alter.
      destruct (decide (y = b)) as [->|Hne].
      * rewrite list_lookup_insert_eq by done. intros [= <-]. eauto.
      * rewrite list_lookup_insert_ne by done. eauto.
    + intros q c' Hq.
      pose proof (holders_insert (objs s) b pb pa q Hpb) as Hh.
      pose proof (holders_pos _ _ _ Hpb) as Hpos.
      destruct (decide (q = pb)) as [->|Hqb].
      * rewrite list_lookup_alter_eq in Hq. rewrite Nat.eqb_refl in Hh.
        destruct (decide (pb = pa)) as [->|Hba].
        -- rewrite list_lookup_alter_eq in Hq.
           destruct (heap s !! pa) as [c|] eqn:Hc; [|done].
           simpl in Hq. injection Hq as <-. simpl.
           rewrite Nat.eqb_refl in Hh. specialize (Hcnt _ _ Hc). lia.
        -- rewrite list_lookup_alter_ne in Hq by done.
           destruct (heap s !! pb) as [c|] eqn:Hc; [|done].
           simpl in Hq. injection Hq as <-. simpl.
           destruct (Nat.eqb_spec pa pb); [congruence|].
           specialize (Hcnt _ _ Hc). lia.
      * rewrite list_lookup_alter_ne in Hq by done.
        destruct (Nat.eqb_spec pb q); [congruence|].
        destruct (decide (q = pa)) as [->|Hqa].
        -- rewrite list_lookup_alter_eq in Hq.
           destruct (heap s !! pa) as [c|] eqn:Hc; [|done].
           simpl in Hq. injection Hq as <-. simpl.
           rewrite Nat.eqb_refl in Hh. specialize (Hcnt _ _ Hc). lia.
        -- rewrite list_lookup_alter_ne in Hq by done.
           destruct (Nat.eqb_spec pa q); [congruence|].
           specialize (Hcnt _ _ Hq). lia.
  - intros q. rewrite !list_lookup_alter.
    repeat case_decide; subst; try done; by destruct (heap s !! _).
Qed.

(** **** Sequences of mutations on two objects *)

Lemma forallb_pointwise {X} (f g : X -> bool) (l : list X) :
  (forall x, f x = g x) -> forallb f l = forallb g l.
Proof. intros Hfg. induction l as [|x l IH]; simpl; [done|]. by rewrite Hfg, IH. Qed.

Lemma apply_mutation_shape v (m : mutation) :
  b_rows (apply_mutation v m) = b_rows v /\ b_cols (apply_mutation v m) = b_cols v.
Proof. by destruct m. Qed.

Lemma fold_apply_mutation_shape (ms : list mutation) v :
  b_rows (fold_left apply_mutation ms v) = b_rows v
  /\ b_cols (fold_left apply_mutation ms v) = b_cols v.
Proof.
  revert v. induction ms as [|m ms IH]; intros v; simpl; [done|].
  destruct (IH (apply_mutation v m)) as [-> ->]. apply apply_mutation_shape.
Qed.

Lemma run_mutations_spec (a b : nat) (ms : list (bool * mutation)) :
  a <> b ->
  forall s (A B : @BackendType ScalarImp),
    WF s -> backend_of s a = Some A -> backend_of s b = Some B ->
    forallb (fun tm : bool * mutation => mutation_in_shape
                         (b_rows (if fst tm then A else B))
                         (b_cols (if fst tm then A else B)) (snd tm)) ms = true ->
    exists s',
      run_mutations a b ms s = (inr tt, s')
      /\ WF s'
      /\ backend_of s' a = Some (fold_left apply_mutation (calls_on true ms) A)
      /\ backend_of s' b = Some (fold_left apply_mutation (calls_on false ms) B)
      /\ (ms <> [] -> objs s' !! a <> objs s' !! b)
      /\ (forall tm, last ms = Some tm ->
            exists p v, owns s' (if fst tm then a else b) p v).
Proof.
  intros Hab. induction ms as [|[on_a m] ms IH]; intros s A B Hwf HA HB Hin.
  - exists s. unfold calls_on. simpl.
    split; [done|]. split; [done|]. split; [done|]. split; [done|].
    split; [done|]. intros tm [=].
  - simpl in Hin. apply andb_true_iff in Hin as [Hm Hin].
    cbn [run_mutations].
    set (x := if on_a then a else b) in *.
    set (y := if on_a then b else a).
    assert (Hxy : y <> x) by (subst x y; destruct on_a; congruence).
    assert (Hv : backend_of s x = Some (if on_a then A else B))
      by (subst x; by destruct on_a).
    destruct (run_mutation_spec s x _ m Hwf Hv Hm)
      as (s1 & Hrun & Hwf1 & (p & Hown) & Hlen & Hothers).
    rewrite (bind_ok _ _ _ _ _ Hrun).
    pose proof (apply_mutation_shape (if on_a then A else B) m) as [Hr Hc].
    specialize (IH s1 (if on_a then apply_mutation A m else A)
                      (if on_a then B else apply_mutation B m) Hwf1).
    destruct IH as (s2 & Hrun2 & Hwf2 & HA2 & HB2 & Hdiv & Hlast).
    + destruct on_a; subst x y; simpl in *.
      * by apply owns_backend_of in Hown.
      * by rewrite (Hothers a).
    + destruct on_a; subst x y; simpl in *.
      * by rewrite (Hothers b).
      * by apply owns_backend_of in Hown.
    + rewrite <- Hin. apply forallb_pointwise. intros [t m']. simpl.
      destruct on_a, t; simpl in *; by rewrite ?Hr, ?Hc.
    + exists s2. split; [done|]. split; [done|].
      split; [|split; [|split]].
      * unfold calls_on in *. simpl. destruct on_a; simpl in *; done.
      * unfold calls_on in *. simpl. destruct on_a; simpl in *; done.
      * intros _. destruct ms as [|tm ms]; [|by apply Hdiv].
        simpl in Hrun2. injection Hrun2 as <-.
        destruct Hown as (Hx & _ & Hex). specialize (Hex y Hxy).
        subst x y. destruct on_a; congruence.
      * intros tm Htm. destruct ms as [|tm' ms].
        -- simpl in Htm. injection Htm as <-. simpl in Hrun2.
           injection Hrun2 as <-. simpl. eauto.
        -- apply Hlast. by rewrite last_cons_cons in Htm.
Qed.

(** **** The loops of the row and column members *)

Lemma set_all_shape fi fj value ks (b : @BackendType ScalarImp) :
  b_rows (set_all fi fj value ks b) = b_rows b
  /\ b_cols (set_all fi fj value ks b) = b_cols b.
Proof.
  unfold set_all. revert b. induction ks as [|k ks IH]; intros b; simpl; [done|].
  destruct (IH (set_coeff b (fi k) (fj k) value)) as [-> ->]. done.
Qed.

Lemma set_all_coeff fi fj value ks (b : @BackendType ScalarImp) i j :
  coeff (set_all fi fj value ks b) i j
  = if existsb (fun k => Nat.eqb i (fi k) && Nat.eqb j (fj k)) ks
    then value else coeff b i j.
Proof.
  unfold set_all. revert b. induction ks as [|k ks IH]; intros b; simpl; [done|].
  rewrite IH. simpl.
  destruct (existsb _ ks); [by rewrite orb_true_r|]. by rewrite orb_false_r.
Qed.

Lemma existsb_seq_row (ii n i j : nat) :
  existsb (fun k => Nat.eqb i ii && Nat.eqb j k) (seq 0 n)
  = Nat.eqb i ii && Nat.ltb j n.
Proof.
  apply eq_true_iff_eq. rewrite existsb_exists, andb_true_iff, Nat.ltb_lt. split.
  - intros (k & Hk & Hij). apply in_seq in Hk.
    apply andb_true_iff in Hij as [Hi Hj]. apply Nat.eqb_eq in Hj as ->.
    split; [done|lia].
  - intros [Hi Hj]. exists j. rewrite in_seq, Hi, Nat.eqb_refl. split; [lia|done].
Qed.

Lemma existsb_seq_col (jj n i j : nat) :
  existsb (fun k => Nat.eqb i k && Nat.eqb j jj) (seq 0 n)
  = Nat.ltb i n && Nat.eqb j jj.
Proof.
  apply eq_true_iff_eq. rewrite existsb_exists, andb_true_iff, Nat.ltb_lt. split.
  - intros (k & Hk & Hij). apply in_seq in Hk.
    apply andb_true_iff in Hij as [Hi Hj]. apply Nat.eqb_eq in Hi as ->.
    split; [lia|done].
  - intros [Hi Hj]. exists i. rewrite in_seq, Hj, Nat.eqb_refl. split; [lia|done].
Qed.

Lemma with_pointee_id (l : list (@Cell ScalarImp)) p :
  alter (with_pointee (fun b => b)) p l = l.
Proof. apply list_alter_id. by intros [v n]. Qed.

Lemma run_for_each_set s x p c fi fj value (ks : list nat) :
  objs s !! x = Some p -> heap s !! p = Some c ->
  (forall k, In k ks -> in_shape (pointee c) (fi k) (fj k) = true) ->
  for_each ks (fun k => bind (backend_ptr x)
                          (fun p => eigen_set p (fi k) (fj k) value)) s
  = (inr tt, {| heap := alter (with_pointee (set_all fi fj value ks)) p (heap s);
                objs := objs s |}).
Proof.
  revert s c. induction ks as [|k ks IH]; intros s c Hx Hp Hin.
  - simpl. unfold ret, set_all. simpl. rewrite with_pointee_id. by destruct s.
  - cbn [for_each].
    assert (Hk : in_shape (pointee c) (fi k) (fj k) = true) by (apply Hin; by left).
    rewrite (bind_ok _ _ s tt
               {| heap := alter (with_pointee (fun b => set_coeff b (fi k) (fj k) value)) p (heap s);
                  objs := objs s |}).
    2:{ rewrite (bind_ok _ _ _ _ _ (run_backend_ptr _ _ _ Hx)).
        by apply (run_eigen_set _ _ c). }
    erewrite IH; simpl.
    + by rewrite list_alter_alter_eq.
    + done.
    + by rewrite list_lookup_alter_eq, Hp.
    + intros k' Hk'. simpl. unfold in_shape in *. simpl. apply Hin. by right.
Qed.

Lemma backend_of_lookup s x p c :
  objs s !! x = Some p -> heap s !! p = Some c -> backend_of s x = Some (pointee c).
Proof. intros Hx Hp. unfold backend_of. by rewrite Hx, Hp. Qed.

Lemma clear_row_acts s x v ii :
  ii < b_rows v ->
  acts_in_place s x v
    (bind (cols x) (fun n => for_upto n (fun jj =>
       bind (backend_ptr x) (fun p => eigen_set p ii jj scalar_0))))
    (set_all (fun _ => ii) (fun jj => jj) scalar_0 (seq 0 (b_cols v))).
Proof.
  intros Hii s0 p c0 Hx Hp <- _.
  rewrite (bind_ok _ _ _ _ _ (run_cols _ _ _ (backend_of_lookup _ _ _ _ Hx Hp))).
  unfold for_upto.
  apply (run_for_each_set s0 x p c0 (fun _ => ii) (fun jj => jj)); [done..|].
  intros k Hk%in_seq. unfold in_shape.
  apply andb_true_iff. split; apply Nat.ltb_lt; lia.
Qed.

Lemma clear_col_acts s x v jj :
  jj < b_cols v ->
  acts_in_place s x v
    (bind (rows x) (fun r => for_upto r (fun ii =>
       bind (backend_ptr x) (fun p => eigen_set p ii jj scalar_0))))
    (set_all (fun ii => ii) (fun _ => jj) scalar_0 (seq 0 (b_rows v))).
Proof.
  intros Hjj s0 p c0 Hx Hp <- _.
  rewrite (bind_ok _ _ _ _ _ (run_rows _ _ _ (backend_of_lookup _ _ _ _ Hx Hp))).
  unfold for_upto.
  apply (run_for_each_set s0 x p c0 (fun ii => ii) (fun _ => jj)); [done..|].
  intros k Hk%in_seq. unfold in_shape.
  apply andb_true_iff. split; apply Nat.ltb_lt; lia.
Qed.

Lemma unit_row_acts s x v ii :
  ii < b_rows v -> ii < b_cols v ->
  acts_in_place s x v
    (bind (cols x) (fun n =>
       bind (for_upto n (fun jj =>
               bind (backend_ptr x) (fun p => eigen_set p ii jj scalar_0)))
         (fun _ => bind (backend_ptr x) (fun p => eigen_set p ii ii scalar_1))))
    (fun b => set_coeff
                (set_all (fun _ => ii) (fun jj => jj) scalar_0 (seq 0 (b_cols v)) b)
                ii ii scalar_1).
Proof.
  intros Hr Hc s0 p c0 Hx Hp <- _.
  rewrite (bind_ok _ _ _ _ _ (run_cols _ _ _ (backend_of_lookup _ _ _ _ Hx Hp))).
  unfold for_upto.
  erewrite bind_ok.
  2:{ apply (run_for_each_set s0 x p c0 (fun _ => ii) (fun jj => jj)); [done..|].
      intros k Hk%in_seq. unfold in_shape.
      apply andb_true_iff. split; apply Nat.ltb_lt; lia. }
  erewrite bind_ok; [|by apply run_backend_ptr].
  erewrite run_eigen_set; simpl.
  - by rewrite list_alter_alter_eq.
  - by rewrite list_lookup_alter_eq, Hp.
  - simpl. unfold in_shape.
    destruct (set_all_shape (fun _ => ii) (fun jj => jj) scalar_0
                (seq 0 (b_cols (pointee c0))) (pointee c0)) as [-> ->].
    apply andb_true_iff. split; by apply Nat.ltb_lt.
Qed.

Lemma unit_col_acts s x v jj :
  jj < b_rows v -> jj < b_cols v ->
  acts_in_place s x v
    (bind (rows x) (fun r =>
       bind (for_upto r (fun ii =>
               bind (backend_ptr x) (fun p => eigen_set p ii jj scalar_0)))
         (fun _ => bind (backend_ptr x) (fun p => eigen_set p jj jj scalar_1))))
    (fun b => set_coeff
                (set_all (fun ii => ii) (fun _ => jj) scalar_0 (seq 0 (b_rows v)) b)
                jj jj scalar_1).
Proof.
  intros Hr Hc s0 p c0 Hx Hp <- _.
  rewrite (bind_ok _ _ _ _ _ (run_rows _ _ _ (backend_of_lookup _ _ _ _ Hx Hp))).
  unfold for_upto.
  erewrite bind_ok.
  2:{ apply (run_for_each_set s0 x p c0 (fun ii => ii) (fun _ => jj)); [done..|].
      intros k Hk%in_seq. unfold in_shape.
      apply andb_true_iff. split; apply Nat.ltb_lt; lia. }
  erewrite bind_ok; [|by apply run_backend_ptr].
  erewrite run_eigen_set; simpl.
  - by rewrite list_alter_alter_eq.
  - by rewrite list_lookup_alter_eq, Hp.
  - simpl. unfold in_shape.
    destruct (set_all_shape (fun ii => ii) (fun _ => jj) scalar_0
                (seq 0 (b_rows (pointee c0))) (pointee c0)) as [-> ->].
    apply andb_true_iff. split; by apply Nat.ltb_lt.
Qed.

(** **** [axpy] *)

Lemma run_has_equal_shape s x y v w :
  backend_of s x = Some v -> backend_of s y = Some w ->
  has_equal_shape x y s
  = (inr (Nat.eqb (b_rows v) (b_rows w) && Nat.eqb (b_cols v) (b_cols w)), s).
Proof.
  intros Hv Hw. unfold has_equal_shape.
  rewrite (bind_ok _ _ _ _ _ (run_rows _ _ _ Hv)).
  rewrite (bind_ok _ _ _ _ _ (run_rows _ _ _ Hw)).
  rewrite (bind_ok _ _ _ _ _ (run_cols _ _ _ Hv)).
  by rewrite (bind_ok _ _ _ _ _ (run_cols _ _ _ Hw)).
Qed.

Lemma axpy_acts s x v (px : nat) cx alpha :
  heap s !! px = Some cx ->
  b_rows (pointee cx) = b_rows v -> b_cols (pointee cx) = b_cols v ->
  acts_in_place s x v
    (bind (backend_ptr x) (fun p => eigen_add_scaled p alpha px))
    (add_scaled_coeffs alpha (pointee cx)).
Proof.
  intros Hpx Hr Hc s0 p c0 Hx Hp <- Hpres.
  destruct (Hpres _ _ Hpx) as (cx' & Hpx' & Heq).
  rewrite (bind_ok _ _ _ _ _ (run_backend_ptr _ _ _ Hx)).
  unfold eigen_add_scaled.
  rewrite (bind_ok _ _ _ _ _ (run_deref _ _ _ Hpx')).
  rewrite (bind_ok _ _ _ _ _ (run_deref _ _ _ Hp)).
  rewrite Heq, Hr, Hc, !Nat.eqb_refl. done.
Qed.
Lemma all_coeffs_spec (P : ScalarImp -> bool) (b : @BackendType ScalarImp) :
  all_coeffs P b = true ->
  forall i j, i < b_rows b -> j < b_cols b -> P (coeff b i j) = true.
Proof.
  unfold all_coeffs. rewrite forallb_forall. intros Hall i j Hi Hj.
  specialize (Hall i). rewrite forallb_forall in Hall.
  apply Hall; apply in_seq; lia.
Qed.

(** C1. Copy on write. Let [a] and [b] be two objects of a store whose
    reference counts are sound, and let [b = a] be executed, so that both
    hold the same backend. Then any sequence of [set_entry], [add_to_entry]
    and [scal] calls on [a] and on [b] whose indices are within the shape
    runs to its end, and afterwards every entry of [a] is what the calls on
    [a] alone make of the matrix [a] had before the assignment, and every
    entry of [b] is what the calls on [b] alone make of that same matrix: a
    call on one object never changes the entries of the other. After the
    first call the two objects hold different backends, and the object
    called last is the only holder of its backend, whose use count is 1 (a
    private copy). *)
Theorem copy_on_write_divergence s0 (a b : nat) (A : @BackendType ScalarImp)
    (ms : list (bool * mutation)) :
  well_formed s0 = true ->
  a <> b ->
  backend_of s0 a = Some A ->
  b < length (objs s0) ->
  forallb (fun tm : bool * mutation =>
             mutation_in_shape (b_rows A) (b_cols A) (snd tm)) ms = true ->
  exists s1 s2,
    operator_assign b a s0 = (inr tt, s1)
    /\ objs s1 !! b = objs s1 !! a
    /\ run_mutations a b ms s1 = (inr tt, s2)
    /\ (forall i j, i < b_rows A -> j < b_cols A ->
          get_entry a i j s2
          = (inr (coeff (fold_left apply_mutation (calls_on true ms) A) i j), s2)
          /\ get_entry b i j s2
             = (inr (coeff (fold_left apply_mutation (calls_on false ms) A) i j), s2))
    /\ (ms <> [] -> objs s2 !! a <> objs s2 !! b)
    /\ (forall tm, last ms = Some tm ->
          exists p v, owns s2 (if fst tm then a else b) p v).
Proof.
  intros Hwf%well_formed_WF Hab HA Hb Hin.
  apply backend_of_Some in HA as (pa & ca & Ha & Hpa & HcA).
  destruct (operator_assign_spec s0 a b pa Hwf Ha Hb) as (s1 & Hrun1 & Hwf1 & Hobjs & Hheap).
  assert (Ha1 : objs s1 !! a = Some pa).
  { rewrite Hobjs. by rewrite list_lookup_insert_ne. }
  assert (Hb1 : objs s1 !! b = Some pa).
  { rewrite Hobjs. by apply list_lookup_insert_eq. }
  assert (Hp1 : exists c1, heap s1 !! pa = Some c1 /\ pointee c1 = A).
  { specialize (Hheap pa). rewrite Hpa in Hheap. simpl in Hheap.
    destruct (heap s1 !! pa) as [c1|]; [|done]. simpl in Hheap.
    exists c1. split; [done|]. congruence. }
  destruct Hp1 as (c1 & Hp1 & Hc1).
  assert (HA1 : backend_of s1 a = Some A).
  { apply backend_of_Some. by exists pa, c1. }
  assert (HB1 : backend_of s1 b = Some A).
  { apply backend_of_Some. by exists pa, c1. }
  destruct (run_mutations_spec a b ms Hab s1 A A Hwf1 HA1 HB1)
    as (s2 & Hrun2 & Hwf2 & HA2 & HB2 & Hdiv & Hlast).
  { rewrite <- Hin. apply forallb_pointwise. intros [[] m]; done. }
  exists s1, s2. split; [done|]. split; [congruence|]. split; [done|].
  split; [|split; done].
  intros i j Hi Hj.
  destruct (fold_apply_mutation_shape (calls_on true ms) A) as [Hra Hca].
  destruct (fold_apply_mutation_shape (calls_on false ms) A) as [Hrb Hcb].
  split; apply run_get_entry; try done; lia.
Qed.

(** C2. Row and column members out of range. For an object that denotes
    the matrix [v], every row index [ii >= rows()], the index [ii == rows()]
    included, makes [clear_row(ii)] and [unit_row(ii)] raise
    [index_out_of_range], and every column index [jj >= cols()] makes
    [clear_col(jj)] and [unit_col(jj)] raise it; the store after the call is
    the store before it, so no entry of any matrix is modified and no index
    is clamped. *)
Theorem row_col_index_out_of_range s (this : nat) v :
  backend_of s this = Some v ->
  (forall ii, b_rows v <= ii ->
     clear_row this ii s
     = (inl (Throw (index_out_of_range (row_message ii (b_rows v)))), s)
     /\ unit_row this ii s
        = (inl (Throw (index_out_of_range (row_message ii (b_rows v)))), s))
  /\ (forall jj, b_cols v <= jj ->
        clear_col this jj s
        = (inl (Throw (index_out_of_range (col_message jj (b_cols v)))), s)
        /\ unit_col this jj s
           = (inl (Throw (index_out_of_range (col_message jj (b_cols v)))), s)).
Proof.
  intros Hv. split.
  - intros ii Hii%Nat.leb_le. unfold clear_row, unit_row.
    rewrite !(bind_ok _ _ _ _ _ (run_rows _ _ _ Hv)), Hii. done.
  - intros jj Hjj%Nat.leb_le. unfold clear_col, unit_col.
    rewrite !(bind_ok _ _ _ _ _ (run_cols _ _ _ Hv)), Hjj. done.
Qed.

(** C5. [unit_row] on a square matrix. For an object that denotes an
    [N] x [N] matrix [v] and a row index [i < N], [unit_row(i)] succeeds, and
    afterwards [get_entry(i, j)] is [ScalarType(1)] for [j == i] and
    [ScalarType(0)] for every other [j < N], while [get_entry(i', j)] for a
    row [i' != i] is the entry [v] had. *)
Theorem unit_row_square s (this : nat) v (N i : nat) :
  backend_of s this = Some v ->
  b_rows v = N -> b_cols v = N ->
  i < N ->
  exists s',
    unit_row this i s = (inr tt, s')
    /\ (forall j, j < N ->
          get_entry this i j s'
          = (inr (if Nat.eqb j i then scalar_1 else scalar_0), s'))
    /\ (forall i' j, i' <> i -> i' < N -> j < N ->
          get_entry this i' j s' = (inr (coeff v i' j), s')).
Proof.
  intros Hv Hr Hc Hi. unfold unit_row.
  rewrite (bind_ok _ _ _ _ _ (run_rows _ _ _ Hv)).
  destruct (Nat.leb_spec (b_rows v) i) as [Hle|_]; [lia|].
  destruct (mutate_self s this v _ _ Hv (unit_row_acts s this v i ltac:(lia) ltac:(lia)))
    as (s' & Hrun & Hv' & _).
  exists s'. split; [done|].
  pose proof (set_all_shape (fun _ => i) (fun jj => jj) scalar_0 (seq 0 (b_cols v)) v)
    as [Hsr Hsc].
  split.
  - intros j Hj. rewrite (run_get_entry _ _ _ i j Hv'); simpl; [|lia..].
    rewrite set_all_coeff, existsb_seq_row, !Nat.eqb_refl. simpl.
    destruct (Nat.eqb_spec j i); [done|].
    destruct (Nat.ltb_spec j (b_cols v)); [done|lia].
  - intros i' j Hne Hi' Hj. rewrite (run_get_entry _ _ _ i' j Hv'); simpl; [|lia..].
    rewrite set_all_coeff, existsb_seq_row.
    destruct (Nat.eqb_spec i' i); [done|]. done.
Qed.

Lemma axpy_mismatch s (this xx : nat) (A X : @BackendType ScalarImp)
    (alpha : ScalarImp) :
  backend_of s this = Some A ->
  backend_of s xx = Some X ->
  b_rows X <> b_rows A \/ b_cols X <> b_cols A ->
  axpy this alpha xx s
  = (inl (Throw (shapes_do_not_match
            (shape_message (b_rows X) (b_cols X) (b_rows A) (b_cols A)))), s).
Proof.
  intros HA HX Hne. unfold axpy.
  rewrite (bind_ok _ _ _ _ _ (run_has_equal_shape _ _ _ _ _ HA HX)).
  assert (Nat.eqb (b_rows A) (b_rows X) && Nat.eqb (b_cols A) (b_cols X) = false) as ->.
  { apply andb_false_iff. rewrite !Nat.eqb_neq. destruct Hne; [left|right]; congruence. }
  simpl.
  rewrite (bind_ok _ _ _ _ _ (run_rows _ _ _ HX)).
  rewrite (bind_ok _ _ _ _ _ (run_cols _ _ _ HX)).
  rewrite (bind_ok _ _ _ _ _ (run_rows _ _ _ HA)).
  by rewrite (bind_ok _ _ _ _ _ (run_cols _ _ _ HA)).
Qed.

Lemma axpy_match s (this xx : nat) (A X : @BackendType ScalarImp)
    (alpha : ScalarImp) :
  backend_of s this = Some A ->
  backend_of s xx = Some X ->
  b_rows X = b_rows A -> b_cols X = b_cols A ->
  exists s',
    axpy this alpha xx s = (inr tt, s')
    /\ forall i j, i < b_rows A -> j < b_cols A ->
         get_entry this i j s'
         = (inr (plus (coeff A i j) (times alpha (coeff X i j))), s').
Proof.
  intros HA HX Hr Hc. unfold axpy.
  rewrite (bind_ok _ _ _ _ _ (run_has_equal_shape _ _ _ _ _ HA HX)).
  rewrite Hr, Hc, !Nat.eqb_refl. simpl.
  apply backend_of_Some in HX as (px & cx & Hxx & Hpx & <-).
  rewrite (bind_ok _ _ _ _ _ (run_backend_ptr _ _ _ Hxx)).
  unfold backend. rewrite bind_assoc.
  destruct (mutate_self s this A _ _ HA (axpy_acts s this A px cx alpha Hpx Hr Hc))
    as (s' & Hrun & HA' & _).
  exists s'. split; [done|]. intros i j Hi Hj.
  by rewrite (run_get_entry _ _ _ i j HA').
Qed.

(** C3. [axpy] and the shapes. For an object [this] that denotes [A] and
    an object [xx] that denotes [X]: [this.axpy(alpha, xx)] raises
    [shapes_do_not_match] if and only if the rows or the columns of [X] and
    [A] differ; the message of the exception is
    "The shape of xx (RxC) does not match the shape of this (R'xC')!" with
    [R], [C] the shape of [X] and [R'], [C'] the shape of [A], and the store
    is left as it was. When the shapes agree the call succeeds, and
    afterwards [get_entry(i, j)] is [A(i,j) + alpha * X(i,j)]. *)
Theorem axpy_shape_check s (this xx : nat) (A X : @BackendType ScalarImp)
    (alpha : ScalarImp) :
  backend_of s this = Some A ->
  backend_of s xx = Some X ->
  ((exists what s', axpy this alpha xx s = (inl (Throw (shapes_do_not_match what)), s'))
   <-> (b_rows X <> b_rows A \/ b_cols X <> b_cols A))
  /\ (b_rows X <> b_rows A \/ b_cols X <> b_cols A ->
      axpy this alpha xx s
      = (inl (Throw (shapes_do_not_match
                ("The shape of xx (" ++ show_size_t (b_rows X) ++ "x"
                 ++ show_size_t (b_cols X)
                 ++ ") does not match the shape of this ("
                 ++ show_size_t (b_rows A) ++ "x" ++ show_size_t (b_cols A)
                 ++ ")!")%string)), s))
  /\ (b_rows X = b_rows A -> b_cols X = b_cols A ->
      exists s',
        axpy this alpha xx s = (inr tt, s')
        /\ forall i j, i < b_rows A -> j < b_cols A ->
             get_entry this i j s'
             = (inr (plus (coeff A i j) (times alpha (coeff X i j))), s')).
Proof.
  intros HA HX.
  split; [|split].
  - split.
    + intros (what & s' & Hthrow).
      destruct (Nat.eq_dec (b_rows X) (b_rows A)) as [Hr|Hr]; [|by left].
      destruct (Nat.eq_dec (b_cols X) (b_cols A)) as [Hc|Hc]; [|by right].
      destruct (axpy_match s this xx A X alpha HA HX Hr Hc) as (s'' & Hok & _).
      congruence.
    + intros Hne. eexists _, _. by apply axpy_mismatch.
  - intros Hne. by apply axpy_mismatch.
  - by apply axpy_match.
Qed.
End EigenDenseMatrix_facts.

(** ** EigenDenseMatrix over [double] *)

Section EigenDenseMatrix_double.
Import LA.

Lemma is_finite_Prim2SF (x : float) :
  PrimFloat.is_finite x = true ->
  (exists sx, Prim2SF x = S754_zero sx)
  \/ (exists sx m e, Prim2SF x = S754_finite sx m e).
Proof.
  unfold PrimFloat.is_finite, PrimFloat.is_nan, PrimFloat.is_infinity.
  rewrite !FloatAxioms.eqb_spec, FloatAxioms.abs_spec.
  destruct (Prim2SF x) as [sx| sx | |sx m e]; eauto.
  - destruct sx; vm_compute; discriminate.
  - vm_compute; discriminate.
Qed.

(** [0 * x] is a zero for a finite [x] ... *)
Lemma double_zero_times_finite (x : float) :
  PrimFloat.is_finite x = true ->
  exists sz, Prim2SF (PrimFloat.mul PrimFloat.zero x) = S754_zero sz.
Proof.
  intros Hx. rewrite FloatAxioms.mul_spec.
  destruct (is_finite_Prim2SF x Hx) as [[sx ->]|(sx & m & e & ->)]; by eexists.
Qed.

(** ... and adding a zero changes at most the sign of a zero. *)
Lemma double_plus_zero (a z : float) sz :
  Prim2SF z = S754_zero sz ->
  PrimFloat.add a z = a
  \/ (PrimFloat.is_zero a = true /\ PrimFloat.is_zero (PrimFloat.add a z) = true).
Proof.
  intros Hz.
  pose proof (FloatAxioms.add_spec a z) as Hadd. rewrite Hz in Hadd.
  destruct (Prim2SF a) as [sa|sa| |sa m e] eqn:Ha.
  - right. unfold PrimFloat.is_zero. rewrite !FloatAxioms.eqb_spec, Hadd, Ha.
    split; [done|]. by destruct sa, sz.
  - left. apply FloatAxioms.Prim2SF_inj. by rewrite Hadd, Ha.
  - left. apply FloatAxioms.Prim2SF_inj. by rewrite Hadd, Ha.
  - left. apply FloatAxioms.Prim2SF_inj. by rewrite Hadd, Ha.
Qed.

(** C6, as the code has it: for dense matrices over [double], [a.axpy(0, b)]
    with a [b] of the shape of [a] all of whose entries are finite succeeds
    and leaves every entry of [a] as it was, except that an entry that was a
    zero is a zero again, possibly of the other sign. (With an infinite or
    NaN entry in [b] the product [0 * b(i,j)] is NaN and so is the sum.) *)
Theorem axpy_zero_finite (s : @State float) (this xx : nat)
    (A X : @BackendType float) :
  backend_of s this = Some A ->
  backend_of s xx = Some X ->
  b_rows X = b_rows A -> b_cols X = b_cols A ->
  all_coeffs PrimFloat.is_finite X = true ->
  exists s',
    axpy this scalar_0 xx s = (inr tt, s')
    /\ forall i j, i < b_rows A -> j < b_cols A ->
         exists r, get_entry this i j s' = (inr r, s')
           /\ (r = coeff A i j
               \/ (PrimFloat.is_zero (coeff A i j) = true
                   /\ PrimFloat.is_zero r = true)).
Proof.
  intros HA HX Hr Hc Hfin.
  destruct (axpy_match s this xx A X scalar_0 HA HX Hr Hc) as (s' & Hrun & Hget).
  exists s'. split; [done|]. intros i j Hi Hj.
  eexists. split; [by apply Hget|]. simpl.
  destruct (double_zero_times_finite (coeff X i j)) as [sz Hz].
  { apply (all_coeffs_spec _ _ Hfin); lia. }
  apply (double_plus_zero _ _ _ Hz).
Qed.

Lemma axpy_zero_finite_witness :
  exists s',
    axpy 0 scalar_0 1 one_and_two = (inr tt, s')
    /\ forall i j, i < 1 -> j < 1 ->
         exists r, get_entry 0 i j s' = (inr r, s')
           /\ (r = coeff (set_coeff (zero_backend 1 1) 0 0 PrimFloat.one) i j
               \/ (PrimFloat.is_zero
                     (coeff (set_coeff (zero_backend 1 1) 0 0 PrimFloat.one) i j) = true
                   /\ PrimFloat.is_zero r = true)).
Proof.
  apply (axpy_zero_finite one_and_two 0 1
           (set_coeff (zero_backend 1 1) 0 0 PrimFloat.one)
           (set_coeff (zero_backend 1 1) 0 0 PrimFloat.two));
    reflexivity.
Defined.

(** C6 fails as stated: with [a = (1.0)] and [b = (+infinity)], both 1 x 1,
    [a.axpy(0, b)] succeeds and leaves NaN in [a(0,0)]. *)
Lemma axpy_zero_infinite_entry :
  get_entry 0 0 0 one_and_infinity = (inr PrimFloat.one, one_and_infinity)
  /\ get_entry 1 0 0 one_and_infinity = (inr PrimFloat.infinity, one_and_infinity)
  /\ has_equal_shape 0 1 one_and_infinity = (inr true, one_and_infinity)
  /\ exists s' r,
       axpy 0 scalar_0 1 one_and_infinity = (inr tt, s')
       /\ get_entry 0 0 0 s' = (inr r, s')
       /\ PrimFloat.is_nan r = true
       /\ PrimFloat.eqb r PrimFloat.one = false.
Proof.
  split; [reflexivity|]. split; [reflexivity|]. split; [reflexivity|].
  exists (final_state (axpy 0 scalar_0 1) one_and_infinity), PrimFloat.nan.
  split; [reflexivity|]. split; [reflexivity|]. split; reflexivity.
Qed.

(** *** The general statements at concrete stores *)

Lemma copy_on_write_divergence_witness :
  exists s1 s2,
    operator_assign 1 0 (two_objects 2 2 3 3) = (inr tt, s1)
    /\ objs s1 !! 1 = objs s1 !! 0
    /\ run_mutations 0 1 example_calls s1 = (inr tt, s2)
    /\ (forall i j, i < 2 -> j < 2 ->
          get_entry 0 i j s2
          = (inr (coeff (fold_left apply_mutation (calls_on true example_calls)
                           (zero_backend 2 2)) i j), s2)
          /\ get_entry 1 i j s2
             = (inr (coeff (fold_left apply_mutation (calls_on false example_calls)
                              (zero_backend 2 2)) i j), s2))
    /\ (example_calls <> [] -> objs s2 !! 0 <> objs s2 !! 1)
    /\ (forall tm, last example_calls = Some tm ->
          exists p v, owns s2 (if fst tm then 0 else 1) p v).
Proof.
  apply (copy_on_write_divergence (two_objects 2 2 3 3) 0 1 (zero_backend 2 2)
           example_calls).
  - reflexivity.
  - lia.
  - reflexivity.
  - simpl. lia.
  - reflexivity.
Defined.

Lemma row_col_index_out_of_range_witness :
  clear_row 0 3 (two_objects 3 3 2 2)
  = (inl (Throw (index_out_of_range
                   "Given ii (3) is larger than the rows of this (3)!")),
     two_objects 3 3 2 2)
  /\ unit_col 0 7 (two_objects 3 3 2 2)
     = (inl (Throw (index_out_of_range
                      "Given jj (7) is larger than the cols of this (3)!")),
        two_objects 3 3 2 2).
Proof.
  destruct (row_col_index_out_of_range (two_objects 3 3 2 2) 0
              (zero_backend 3 3) eq_refl) as [Hrow Hcol].
  split.
  - apply (Hrow 3). simpl. lia.
  - apply (Hcol 7). simpl. lia.
Defined.

Lemma axpy_shape_check_witness :
  axpy 0 PrimFloat.two 1 (two_objects 3 3 2 2)
  = (inl (Throw (shapes_do_not_match
                   "The shape of xx (2x2) does not match the shape of this (3x3)!")),
     two_objects 3 3 2 2).
Proof.
  destruct (axpy_shape_check (two_objects 3 3 2 2) 0 1
              (zero_backend 3 3) (zero_backend 2 2) PrimFloat.two eq_refl eq_refl)
    as (_ & Hbad & _).
  apply Hbad. left. simpl. lia.
Defined.

Lemma unit_row_square_witness :
  exists s',
    unit_row 0 1 (two_objects 3 3 2 2) = (inr tt, s')
    /\ (forall j, j < 3 ->
          get_entry 0 1 j s'
          = (inr (if Nat.eqb j 1 then PrimFloat.one else PrimFloat.zero), s'))
    /\ (forall i' j, i' <> 1 -> i' < 3 -> j < 3 ->
          get_entry 0 i' j s' = (inr PrimFloat.zero, s')).
Proof.
  assert (Hi : 1 < 3) by lia.
  exact (unit_row_square (two_objects 3 3 2 2) 0 (zero_backend 3 3) 3 1
           eq_refl eq_refl eq_refl Hi).
Defined.
End EigenDenseMatrix_double.

(** ** EigenDenseMatrix: the further members *)

Section EigenDenseMatrix_more_facts.
Import LA.
Context {ScalarImp : Type} `{ScalarType ScalarImp}.
Implicit Types (s : @State ScalarImp) (v : @BackendType ScalarImp) (c : @Cell ScalarImp).

(** **** Outcomes of the primitives in every store *)

Lemma rows_outcome s (x : nat) :
  rows x s = match backend_of s x with
             | Some v => (inr (b_rows v), s)
             | None => (inl InvalidObject, s)
             end.
Proof.
  unfold backend_of, rows, bind, backend_ptr, deref, ret.
  destruct (objs s !! x) as [p|]; [|done].
  by destruct (heap s !! p) as [c|].
Qed.

Lemma cols_outcome s (x : nat) :
  cols x s = match backend_of s x with
             | Some v => (inr (b_cols v), s)
             | None => (inl InvalidObject, s)
             end.
Proof.
  unfold backend_of, cols, bind, backend_ptr, deref, ret.
  destruct (objs s !! x) as [p|]; [|done].
  by destruct (heap s !! p) as [c|].
Qed.

Lemma ensure_uniqueness_invalid s (x : nat) :
  backend_of s x = None -> ensure_uniqueness x s = (inl InvalidObject, s).
Proof.
  unfold backend_of, ensure_uniqueness, unique, bind, backend_ptr, deref.
  destruct (objs s !! x) as [p|]; [|done].
  by destruct (heap s !! p) as [c|].
Qed.

Lemma assert_true (k : @M ScalarImp unit) s :
  bind (assert true) (fun _ => k) s = k s.
Proof. done. Qed.

Lemma assert_false (k : @M ScalarImp unit) s :
  bind (assert false) (fun _ => k) s = (inl AssertionFailed, s).
Proof. done. Qed.

(** **** A new block for an object, and a new object *)

(** [backend_ = std::make_shared< BackendType >(b)] on a sound store. *)
Lemma move_assign_fresh s (x p : nat) (b : @BackendType ScalarImp) :
  WF s -> objs s !! x = Some p ->
  exists s',
    bind (make_shared b) (shared_ptr_move_assign x) s = (inr tt, s')
    /\ WF s'
    /\ owns s' x (length (heap s)) b
    /\ length (objs s') = length (objs s)
    /\ (forall y, y <> x -> backend_of s' y = backend_of s y).
Proof.
  intros [Hptr Hcnt] Hx.
  unfold bind at 1, make_shared at 1, shared_ptr_move_assign.
  unfold bind at 1, backend_ptr at 1. simpl. rewrite Hx.
  unfold bind, release, update_cell, store_backend_. simpl.
  pose proof (Hptr _ _ Hx) as Hplt.
  pose proof (holders_pos _ _ _ Hx) as Hpos.
  eexists. split; [reflexivity|].
  assert (Hfresh : holders (objs s) (length (heap s)) = 0).
  { apply holders_none. intros y Hy. apply Hptr in Hy. lia. }
  split; [|split; [|split]]; simpl.
  - split; simpl.
    + intros y q. rewrite length_alter, length_app. simpl.
      destruct (decide (y = x)) as [->|Hne].
      * rewrite list_lookup_insert_eq by (eapply lookup_lt_Some; eauto).
        intros [= <-]. lia.
      * rewrite list_lookup_insert_ne by done. intros Hy. apply Hptr in Hy. lia.
    + intros q c' Hq.
      pose proof (holders_insert (objs s) x p (length (heap s)) q Hx) as Hh.
      destruct (decide (q = p)) as [->|Hqp].
      * rewrite list_lookup_alter_eq, lookup_app_l in Hq by done.
        destruct (heap s !! p) as [c0|] eqn:Hp; [|done].
        simpl in Hq. injection Hq as <-. simpl.
        rewrite Nat.eqb_refl in Hh. specialize (Hcnt _ _ Hp).
        destruct (Nat.eqb_spec (length (heap s)) p); lia.
      * rewrite list_lookup_alter_ne in Hq by done.
        destruct (Nat.eqb_spec p q); [congruence|].
        destruct (Nat.eqb_spec (length (heap s)) q) as [<-|Hlen].
        -- rewrite lookup_app_r, Nat.sub_diag in Hq by done.
           injection Hq as <-. simpl. lia.
        -- assert (q < length (heap s)).
           { apply lookup_lt_Some in Hq. rewrite length_app in Hq. simpl in Hq. lia. }
           rewrite lookup_app_l in Hq by done.
           specialize (Hcnt _ _ Hq). lia.
  - split; [|split]; simpl.
    + apply list_lookup_insert_eq. eapply lookup_lt_Some; eauto.
    + rewrite list_lookup_alter_ne by lia.
      by rewrite lookup_app_r, Nat.sub_diag.
    + intros y Hy. rewrite list_lookup_insert_ne by done.
      intros Hyp. apply Hptr in Hyp. lia.
  - apply length_insert.
  - intros y Hy. unfold backend_of. simpl. rewrite list_lookup_insert_ne by done.
    destruct (objs s !! y) as [q|] eqn:Hq; [|done].
    pose proof (Hptr _ _ Hq) as Hqlt.
    destruct (decide (q = p)) as [->|Hqp].
    + rewrite list_lookup_alter_eq, lookup_app_l by done.
      by destruct (heap s !! p).
    + by rewrite list_lookup_alter_ne, lookup_app_l by done.
Qed.

(** A new object on a new block of its own. *)
Lemma from_backend_spec s (b : @BackendType ScalarImp) :
  WF s ->
  exists s',
    EigenDenseMatrix_from_backend b s = (inr (length (objs s)), s')
    /\ WF s'
    /\ owns s' (length (objs s)) (length (heap s)) b
    /\ length (objs s') = S (length (objs s))
    /\ (forall y, y <> length (objs s) ->
          objs s' !! y = objs s !! y /\ backend_of s' y = backend_of s y).
Proof.
  intros [Hptr Hcnt].
  unfold EigenDenseMatrix_from_backend, bind, make_shared, new_object. simpl.
  eexists. split; [reflexivity|].
  assert (Hfresh : holders (objs s) (length (heap s)) = 0).
  { apply holders_none. intros y Hy. apply Hptr in Hy. lia. }
  assert (Hold : forall y, y <> length (objs s) ->
            (objs s ++ [length (heap s)]) !! y = objs s !! y).
  { intros y Hy. destruct (decide (y < length (objs s))).
    - by rewrite lookup_app_l.
    - rewrite !lookup_ge_None_2; [done|lia|]. rewrite length_app. simpl. lia. }
  split; [|split; [|split]]; simpl.
  - split; simpl.
    + intros y q Hy. rewrite length_app. simpl.
      destruct (decide (y = length (objs s))) as [->|Hne].
      * rewrite lookup_app_r, Nat.sub_diag in Hy by done. injection Hy as <-. lia.
      * rewrite Hold in Hy by done. apply Hptr in Hy. lia.
    + intros q c' Hq. rewrite holders_app. simpl.
      destruct (Nat.eqb_spec (length (heap s)) q) as [<-|Hlen].
      * rewrite lookup_app_r, Nat.sub_diag in Hq by done.
        injection Hq as <-. simpl. lia.
      * assert (q < length (heap s)).
        { apply lookup_lt_Some in Hq. rewrite length_app in Hq. simpl in Hq. lia. }
        rewrite lookup_app_l in Hq by done.
        specialize (Hcnt _ _ Hq). lia.
  - split; [|split]; simpl.
    + by rewrite lookup_app_r, Nat.sub_diag.
    + by rewrite lookup_app_r, Nat.sub_diag.
    + intros y Hy. rewrite Hold by done. intros Hyp. apply Hptr in Hyp. lia.
  - rewrite length_app. simpl. lia.
  - intros y Hy. split; [by apply Hold|].
    unfold backend_of. simpl. rewrite Hold by done.
    destruct (objs s !! y) as [q|] eqn:Hq; [|done].
    pose proof (Hptr _ _ Hq). by rewrite lookup_app_l.
Qed.

Lemma EigenDenseMatrix_new_spec s (rr cc : nat) :
  WF s ->
  exists s',
    EigenDenseMatrix_new rr cc s = (inr (length (objs s)), s')
    /\ WF s'
    /\ owns s' (length (objs s)) (length (heap s)) (zero_backend rr cc)
    /\ length (objs s') = S (length (objs s))
    /\ (forall y, y <> length (objs s) ->
          objs s' !! y = objs s !! y /\ backend_of s' y = backend_of s y).
Proof. apply from_backend_spec. Qed.

Lemma copy_spec s (x : nat) v :
  WF s -> backend_of s x = Some v ->
  exists s',
    copy x s = (inr (length (objs s)), s')
    /\ WF s'
    /\ owns s' (length (objs s)) (length (heap s)) v
    /\ length (objs s') = S (length (objs s))
    /\ (forall y, y <> length (objs s) ->
          objs s' !! y = objs s !! y /\ backend_of s' y = backend_of s y).
Proof.
  intros Hwf Hv. apply backend_of_Some in Hv as (p & c & Hx & Hp & <-).
  unfold copy.
  rewrite (bind_ok _ _ _ _ _ (run_backend_ptr _ _ _ Hx)).
  rewrite (bind_ok _ _ _ _ _ (run_deref _ _ _ Hp)).
  by apply from_backend_spec.
Qed.

(** The copy constructor: one more holder of the block of [a]. *)
Lemma copy_construct_spec s (a p : nat) :
  WF s -> objs s !! a = Some p ->
  exists s',
    EigenDenseMatrix_copy_construct a s = (inr (length (objs s)), s')
    /\ WF s'
    /\ objs s' = objs s ++ [p]
    /\ (forall q, pointee <$> heap s' !! q = pointee <$> heap s !! q).
Proof.
  intros [Hptr Hcnt] Ha.
  unfold EigenDenseMatrix_copy_construct.
  rewrite (bind_ok _ _ _ _ _ (run_backend_ptr _ _ _ Ha)).
  unfold bind, acquire, update_cell, new_object. simpl.
  eexists. split; [reflexivity|]. split; [|split; [done|]]; simpl.
  - split; simpl.
    + intros y q Hy. rewrite length_alter.
      destruct (decide (y < length (objs s))).
      * rewrite lookup_app_l in Hy by done. eauto.
      * apply lookup_lt_Some in Hy as Hlt. rewrite length_app in Hlt. simpl in Hlt.
        assert (y = length (objs s)) as -> by lia.
        rewrite lookup_app_r, Nat.sub_diag in Hy by done. injection Hy as <-. eauto.
    + intros q c' Hq. rewrite holders_app. simpl.
      destruct (decide (q = p)) as [->|Hqp].
      * rewrite list_lookup_alter_eq in Hq.
        destruct (heap s !! p) as [c0|] eqn:Hp; [|done].
        simpl in Hq. injection Hq as <-. simpl. rewrite Nat.eqb_refl.
        specialize (Hcnt _ _ Hp). lia.
      * rewrite list_lookup_alter_ne in Hq by done.
        destruct (Nat.eqb_spec p q); [congruence|].
        specialize (Hcnt _ _ Hq). lia.
  - intros q. rewrite list_lookup_alter.
    case_decide; subst; [|done]. by destruct (heap s !! _).
Qed.

(** **** The row and column members on the object itself *)

Lemma clear_row_self s (x : nat) v (ii : nat) :
  backend_of s x = Some v -> ii < b_rows v ->
  exists s',
    clear_row x ii s = (inr tt, s')
    /\ backend_of s' x
       = Some (set_all (fun _ => ii) (fun jj => jj) scalar_0 (seq 0 (b_cols v)) v).
Proof.
  intros Hv Hii. unfold clear_row.
  rewrite (bind_ok _ _ _ _ _ (run_rows _ _ _ Hv)).
  destruct (Nat.leb_spec (b_rows v) ii) as [Hle|_]; [lia|].
  destruct (mutate_self s x v _ _ Hv (clear_row_acts s x v ii Hii)) as (s' & Hrun & Hv' & _).
  by exists s'.
Qed.

Lemma clear_col_self s (x : nat) v (jj : nat) :
  backend_of s x = Some v -> jj < b_cols v ->
  exists s',
    clear_col x jj s = (inr tt, s')
    /\ backend_of s' x
       = Some (set_all (fun ii => ii) (fun _ => jj) scalar_0 (seq 0 (b_rows v)) v).
Proof.
  intros Hv Hjj. unfold clear_col.
  rewrite (bind_ok _ _ _ _ _ (run_cols _ _ _ Hv)).
  destruct (Nat.leb_spec (b_cols v) jj) as [Hle|_]; [lia|].
  destruct (mutate_self s x v _ _ Hv (clear_col_acts s x v jj Hjj)) as (s' & Hrun & Hv' & _).
  by exists s'.
Qed.

Lemma unit_col_self s (x : nat) v (jj : nat) :
  backend_of s x = Some v -> jj < b_rows v -> jj < b_cols v ->
  exists s',
    unit_col x jj s = (inr tt, s')
    /\ backend_of s' x
       = Some (set_coeff
                 (set_all (fun ii => ii) (fun _ => jj) scalar_0 (seq 0 (b_rows v)) v)
                 jj jj scalar_1).
Proof.
  intros Hv Hr Hc. unfold unit_col.
  rewrite (bind_ok _ _ _ _ _ (run_cols _ _ _ Hv)).
  destruct (Nat.leb_spec (b_cols v) jj) as [Hle|_]; [lia|].
  destruct (mutate_self s x v _ _ Hv (unit_col_acts s x v jj Hr Hc)) as (s' & Hrun & Hv' & _).
  by exists s'.
Qed.

(** X1. [clear_row] within the range. For an object that denotes [v] and
    a row index [ii < rows()], [clear_row(ii)] succeeds, and afterwards
    [get_entry(i, j)] is [ScalarType(0)] in the row [ii] and the entry [v]
    had in every other row; the shape is the one of [v]. *)
Theorem clear_row_in_range s (this : nat) v (ii : nat) :
  backend_of s this = Some v ->
  ii < b_rows v ->
  exists s',
    clear_row this ii s = (inr tt, s')
    /\ forall i j, i < b_rows v -> j < b_cols v ->
         get_entry this i j s'
         = (inr (if Nat.eqb i ii then scalar_0 else coeff v i j), s').
Proof.
  intros Hv Hii. destruct (clear_row_self s this v ii Hv Hii) as (s' & Hrun & Hv').
  exists s'. split; [done|]. intros i j Hi Hj.
  pose proof (set_all_shape (fun _ => ii) (fun jj => jj) scalar_0 (seq 0 (b_cols v)) v)
    as [Hsr Hsc].
  rewrite (run_get_entry _ _ _ i j Hv') by lia.
  rewrite set_all_coeff, existsb_seq_row.
  destruct (Nat.eqb i ii); [|done].
  by destruct (Nat.ltb_spec j (b_cols v)); [|lia].
Qed.

(** X2. [clear_col] within the range. For an object that denotes [v] and
    a column index [jj < cols()], [clear_col(jj)] succeeds, and afterwards
    [get_entry(i, j)] is [ScalarType(0)] in the column [jj] and the entry
    [v] had in every other column. *)
Theorem clear_col_in_range s (this : nat) v (jj : nat) :
  backend_of s this = Some v ->
  jj < b_cols v ->
  exists s',
    clear_col this jj s = (inr tt, s')
    /\ forall i j, i < b_rows v -> j < b_cols v ->
         get_entry this i j s'
         = (inr (if Nat.eqb j jj then scalar_0 else coeff v i j), s').
Proof.
  intros Hv Hjj. destruct (clear_col_self s this v jj Hv Hjj) as (s' & Hrun & Hv').
  exists s'. split; [done|]. intros i j Hi Hj.
  pose proof (set_all_shape (fun ii => ii) (fun _ => jj) scalar_0 (seq 0 (b_rows v)) v)
    as [Hsr Hsc].
  rewrite (run_get_entry _ _ _ i j Hv') by lia.
  rewrite set_all_coeff, existsb_seq_col.
  destruct (Nat.eqb j jj); [|by rewrite andb_false_r].
  by destruct (Nat.ltb_spec i (b_rows v)); [|lia].
Qed.

(** X3. [unit_col] on a matrix of any shape. For an object that denotes
    [v] and an index [jj] that is both a row and a column of [v],
    [unit_col(jj)] succeeds, and afterwards the column [jj] reads
    [ScalarType(1)] in the row [jj] and [ScalarType(0)] in every other row,
    while every other column reads the entries [v] had. *)
Theorem unit_col_in_range s (this : nat) v (jj : nat) :
  backend_of s this = Some v ->
  jj < b_rows v -> jj < b_cols v ->
  exists s',
    unit_col this jj s = (inr tt, s')
    /\ forall i j, i < b_rows v -> j < b_cols v ->
         get_entry this i j s'
         = (inr (if Nat.eqb j jj
                 then (if Nat.eqb i jj then scalar_1 else scalar_0)
                 else coeff v i j), s').
Proof.
  intros Hv Hr Hc. destruct (unit_col_self s this v jj Hv Hr Hc) as (s' & Hrun & Hv').
  exists s'. split; [done|]. intros i j Hi Hj.
  pose proof (set_all_shape (fun ii => ii) (fun _ => jj) scalar_0 (seq 0 (b_rows v)) v)
    as [Hsr Hsc].
  rewrite (run_get_entry _ _ _ i j Hv') by (simpl; lia).
  simpl. rewrite set_all_coeff, existsb_seq_col.
  destruct (Nat.eqb_spec j jj) as [->|Hne].
  - rewrite andb_true_r.
    destruct (Nat.eqb_spec i jj); [done|].
    by destruct (Nat.ltb_spec i (b_rows v)); [|lia].
  - by rewrite !andb_false_r.
Qed.

(** **** The row and column members on a sound store *)

Lemma clear_row_wf s (x : nat) v (ii : nat) :
  WF s -> backend_of s x = Some v -> ii < b_rows v ->
  exists s',
    clear_row x ii s = (inr tt, s')
    /\ WF s'
    /\ (exists p, owns s' x p
         (set_all (fun _ => ii) (fun jj => jj) scalar_0 (seq 0 (b_cols v)) v))
    /\ length (objs s') = length (objs s)
    /\ (forall y, y <> x -> backend_of s' y = backend_of s y).
Proof.
  intros Hwf Hv Hii. unfold clear_row.
  rewrite (bind_ok _ _ _ _ _ (run_rows _ _ _ Hv)).
  destruct (Nat.leb_spec (b_rows v) ii) as [Hle|_]; [lia|].
  apply (mutate_spec s x v _ _ Hwf Hv (clear_row_acts s x v ii Hii)).
Qed.

Lemma clear_col_wf s (x : nat) v (jj : nat) :
  WF s -> backend_of s x = Some v -> jj < b_cols v ->
  exists s',
    clear_col x jj s = (inr tt, s')
    /\ WF s'
    /\ (exists p, owns s' x p
         (set_all (fun ii => ii) (fun _ => jj) scalar_0 (seq 0 (b_rows v)) v))
    /\ length (objs s') = length (objs s)
    /\ (forall y, y <> x -> backend_of s' y = backend_of s y).
Proof.
  intros Hwf Hv Hjj. unfold clear_col.
  rewrite (bind_ok _ _ _ _ _ (run_cols _ _ _ Hv)).
  destruct (Nat.leb_spec (b_cols v) jj) as [Hle|_]; [lia|].
  apply (mutate_spec s x v _ _ Hwf Hv (clear_col_acts s x v jj Hjj)).
Qed.

Lemma unit_row_wf s (x : nat) v (ii : nat) :
  WF s -> backend_of s x = Some v -> ii < b_rows v -> ii < b_cols v ->
  exists s',
    unit_row x ii s = (inr tt, s')
    /\ WF s'
    /\ (exists p, owns s' x p
         (set_coeff
            (set_all (fun _ => ii) (fun jj => jj) scalar_0 (seq 0 (b_cols v)) v)
            ii ii scalar_1))
    /\ length (objs s') = length (objs s)
    /\ (forall y, y <> x -> backend_of s' y = backend_of s y).
Proof.
  intros Hwf Hv Hr Hc. unfold unit_row.
  rewrite (bind_ok _ _ _ _ _ (run_rows _ _ _ Hv)).
  destruct (Nat.leb_spec (b_rows v) ii) as [Hle|_]; [lia|].
  apply (mutate_spec s x v _ _ Hwf Hv (unit_row_acts s x v ii Hr Hc)).
Qed.

Lemma unit_col_wf s (x : nat) v (jj : nat) :
  WF s -> backend_of s x = Some v -> jj < b_rows v -> jj < b_cols v ->
  exists s',
    unit_col x jj s = (inr tt, s')
    /\ WF s'
    /\ (exists p, owns s' x p
         (set_coeff
            (set_all (fun ii => ii) (fun _ => jj) scalar_0 (seq 0 (b_rows v)) v)
            jj jj scalar_1))
    /\ length (objs s') = length (objs s)
    /\ (forall y, y <> x -> backend_of s' y = backend_of s y).
Proof.
  intros Hwf Hv Hr Hc. unfold unit_col.
  rewrite (bind_ok _ _ _ _ _ (run_cols _ _ _ Hv)).
  destruct (Nat.leb_spec (b_cols v) jj) as [Hle|_]; [lia|].
  apply (mutate_spec s x v _ _ Hwf Hv (unit_col_acts s x v jj Hr Hc)).
Qed.

(** **** [unit_row] and [unit_col] on the part of the range that has no
    diagonal entry *)

Lemma unit_row_beyond_cols_run s (x : nat) v (ii : nat) :
  backend_of s x = Some v -> ii < b_rows v -> b_cols v <= ii ->
  exists s',
    unit_row x ii s = (inl AssertionFailed, s')
    /\ backend_of s' x
       = Some (set_all (fun _ => ii) (fun jj => jj) scalar_0 (seq 0 (b_cols v)) v).
Proof.
  intros Hv Hr Hc. unfold unit_row.
  rewrite (bind_ok _ _ _ _ _ (run_rows _ _ _ Hv)).
  destruct (Nat.leb_spec (b_rows v) ii) as [Hle|_]; [lia|].
  apply backend_of_Some in Hv as (p & c & Hx & Hp & <-).
  destruct (ensure_uniqueness_self s x p c Hx Hp)
    as (s1 & p1 & c1 & Hrun & Hx1 & Hp1 & Hc1 & _ & _).
  rewrite (bind_ok _ _ _ _ _ Hrun).
  rewrite (bind_ok _ _ _ _ _ (run_cols _ _ _ (backend_of_lookup _ _ _ _ Hx1 Hp1))).
  unfold for_upto. erewrite bind_ok.
  2:{ apply (run_for_each_set s1 x p1 c1 (fun _ => ii) (fun jj => jj)); [done..|].
      intros k Hk%in_seq. unfold in_shape. rewrite Hc1 in Hk |- *.
      apply andb_true_iff. split; apply Nat.ltb_lt; lia. }
  erewrite bind_ok; [|by apply run_backend_ptr].
  unfold eigen_set. erewrite bind_ok.
  2:{ apply run_deref. simpl. by rewrite list_lookup_alter_eq, Hp1. }
  simpl. unfold in_shape.
  destruct (set_all_shape (fun _ => ii) (fun jj => jj) scalar_0
              (seq 0 (b_cols (pointee c1))) (pointee c1)) as [Hsr Hsc].
  rewrite Hsc, Hc1.
  destruct (Nat.ltb_spec ii (b_cols (pointee c))) as [Hlt|_]; [lia|].
  rewrite andb_false_r, assert_false.
  eexists. split; [reflexivity|].
  unfold backend_of. simpl. rewrite Hx1, list_lookup_alter_eq, Hp1. simpl.
  by rewrite Hc1.
Qed.

Lemma unit_col_beyond_rows_run s (x : nat) v (jj : nat) :
  backend_of s x = Some v -> jj < b_cols v -> b_rows v <= jj ->
  exists s',
    unit_col x jj s = (inl AssertionFailed, s')
    /\ backend_of s' x
       = Some (set_all (fun ii => ii) (fun _ => jj) scalar_0 (seq 0 (b_rows v)) v).
Proof.
  intros Hv Hc Hr. unfold unit_col.
  rewrite (bind_ok _ _ _ _ _ (run_cols _ _ _ Hv)).
  destruct (Nat.leb_spec (b_cols v) jj) as [Hle|_]; [lia|].
  apply backend_of_Some in Hv as (p & c & Hx & Hp & <-).
  destruct (ensure_uniqueness_self s x p c Hx Hp)
    as (s1 & p1 & c1 & Hrun & Hx1 & Hp1 & Hc1 & _ & _).
  rewrite (bind_ok _ _ _ _ _ Hrun).
  rewrite (bind_ok _ _ _ _ _ (run_rows _ _ _ (backend_of_lookup _ _ _ _ Hx1 Hp1))).
  unfold for_upto. erewrite bind_ok.
  2:{ apply (run_for_each_set s1 x p1 c1 (fun ii => ii) (fun _ => jj)); [done..|].
      intros k Hk%in_seq. unfold in_shape. rewrite Hc1 in Hk |- *.
      apply andb_true_iff. split; apply Nat.ltb_lt; lia. }
  erewrite bind_ok; [|by apply run_backend_ptr].
  unfold eigen_set. erewrite bind_ok.
  2:{ apply run_deref. simpl. by rewrite list_lookup_alter_eq, Hp1. }
  simpl. unfold in_shape.
  destruct (set_all_shape (fun ii => ii) (fun _ => jj) scalar_0
              (seq 0 (b_rows (pointee c1))) (pointee c1)) as [Hsr Hsc].
  rewrite Hsr, Hc1.
  destruct (Nat.ltb_spec jj (b_rows (pointee c))) as [Hlt|_]; [lia|].
  rewrite andb_false_l, assert_false.
  eexists. split; [reflexivity|].
  unfold backend_of. simpl. rewrite Hx1, list_lookup_alter_eq, Hp1. simpl.
  by rewrite Hc1.
Qed.

(** **** [axpy] on a sound store *)

Lemma axpy_wf s (this xx : nat) (A X : @BackendType ScalarImp) (alpha : ScalarImp) :
  WF s ->
  backend_of s this = Some A ->
  backend_of s xx = Some X ->
  b_rows X = b_rows A -> b_cols X = b_cols A ->
  exists s',
    axpy this alpha xx s = (inr tt, s')
    /\ WF s'
    /\ (exists p, owns s' this p (add_scaled_coeffs alpha X A))
    /\ length (objs s') = length (objs s)
    /\ (forall y, y <> this -> backend_of s' y = backend_of s y).
Proof.
  intros Hwf HA HX Hr Hc. unfold axpy.
  rewrite (bind_ok _ _ _ _ _ (run_has_equal_shape _ _ _ _ _ HA HX)).
  rewrite Hr, Hc, !Nat.eqb_refl. simpl.
  apply backend_of_Some in HX as (px & cx & Hxx & Hpx & <-).
  rewrite (bind_ok _ _ _ _ _ (run_backend_ptr _ _ _ Hxx)).
  unfold backend. rewrite bind_assoc.
  apply (mutate_spec s this A _ _ Hwf HA (axpy_acts s this A px cx alpha Hpx Hr Hc)).
Qed.

(** **** Calls that cannot succeed *)

Lemma copy_invalid s (x : nat) :
  backend_of s x = None -> copy x s = (inl InvalidObject, s).
Proof.
  unfold backend_of, copy, bind, backend_ptr, deref.
  destruct (objs s !! x) as [p|]; [|done].
  by destruct (heap s !! p) as [c|].
Qed.

Lemma entry_out_of_shape s (x : nat) v (ii jj : nat) (k : @M ScalarImp unit) :
  backend_of s x = Some v ->
  Nat.ltb ii (b_rows v) && Nat.ltb jj (b_cols v) = false ->
  bind (rows x) (fun r => bind (assert (Nat.ltb ii r)) (fun _ =>
    bind (cols x) (fun n => bind (assert (Nat.ltb jj n)) (fun _ => k)))) s
  = (inl AssertionFailed, s).
Proof.
  intros Hv Hout.
  rewrite (bind_ok _ _ _ _ _ (run_rows _ _ _ Hv)).
  destruct (Nat.ltb ii (b_rows v)); [|done]. rewrite assert_true.
  rewrite (bind_ok _ _ _ _ _ (run_cols _ _ _ Hv)).
  simpl in Hout. by rewrite Hout.
Qed.

Lemma run_mutation_invalid s (x : nat) (m : mutation) :
  backend_of s x = None -> run_mutation x m s = (inl InvalidObject, s).
Proof.
  intros Hv. destruct m as [ii jj value|ii jj value|alpha]; simpl.
  - unfold set_entry. apply bind_fail. by rewrite rows_outcome, Hv.
  - unfold add_to_entry. apply bind_fail. by rewrite rows_outcome, Hv.
  - unfold scal, backend. rewrite bind_assoc. apply bind_fail.
    by apply ensure_uniqueness_invalid.
Qed.

Lemma run_mutation_out_of_shape s (x : nat) v (m : mutation) :
  backend_of s x = Some v ->
  mutation_in_shape (b_rows v) (b_cols v) m = false ->
  run_mutation x m s = (inl AssertionFailed, s).
Proof.
  intros Hv Hout. destruct m as [ii jj value|ii jj value|alpha]; simpl in *.
  - by apply (entry_out_of_shape s x v).
  - unfold add_to_entry.
    by apply (entry_out_of_shape s x v ii jj
                (bind (backend x) (fun p => bind (eigen_get p ii jj)
                   (fun old => eigen_set p ii jj (plus old value))))).
  - done.
Qed.

(** **** Every call keeps the reference counts sound *)

Lemma run_call_WF (c : call) s s' :
  WF s -> run_call c s = (inr tt, s') -> WF s'.
Proof.
  intros Hwf. destruct c as [rr cc|y|x|x y|x b|x m|x alpha y|x ii|x jj|x ii|x jj]; simpl.
  - destruct (EigenDenseMatrix_new_spec s rr cc Hwf) as (s1 & Hrun & Hwf1 & _).
    rewrite (bind_ok _ _ _ _ _ Hrun). by intros [= <-].
  - destruct (objs s !! y) as [p|] eqn:Hy.
    + destruct (copy_construct_spec s y p Hwf Hy) as (s1 & Hrun & Hwf1 & _).
      rewrite (bind_ok _ _ _ _ _ Hrun). by intros [= <-].
    + unfold EigenDenseMatrix_copy_construct, bind, backend_ptr. by rewrite Hy.
  - destruct (backend_of s x) as [v|] eqn:Hv.
    + destruct (copy_spec s x v Hwf Hv) as (s1 & Hrun & Hwf1 & _).
      rewrite (bind_ok _ _ _ _ _ Hrun). by intros [= <-].
    + by rewrite (bind_fail _ _ _ _ _ (copy_invalid s x Hv)).
  - destruct (objs s !! y) as [pa|] eqn:Hy.
    + destruct (objs s !! x) as [pb|] eqn:Hx.
      * destruct (operator_assign_spec s y x pa Hwf Hy (lookup_lt_Some _ _ _ Hx))
          as (s1 & Hrun & Hwf1 & _).
        rewrite Hrun. by intros [= <-].
      * unfold operator_assign, shared_ptr_copy_assign.
        rewrite (bind_ok _ _ _ _ _ (run_backend_ptr _ _ _ Hy)).
        unfold acquire at 1, update_cell at 1, bind at 1.
        unfold bind at 1, backend_ptr at 1. simpl. by rewrite Hx.
    + unfold operator_assign, bind, backend_ptr. by rewrite Hy.
  - destruct (objs s !! x) as [p|] eqn:Hx.
    + destruct (move_assign_fresh s x p b Hwf Hx) as (s1 & Hrun & Hwf1 & _).
      unfold operator_assign_backend. rewrite Hrun. by intros [= <-].
    + unfold operator_assign_backend, bind, make_shared, shared_ptr_move_assign,
        bind, backend_ptr. simpl. by rewrite Hx.
  - destruct (backend_of s x) as [v|] eqn:Hv.
    + destruct (mutation_in_shape (b_rows v) (b_cols v) m) eqn:Hin.
      * destruct (run_mutation_spec s x v m Hwf Hv Hin) as (s1 & Hrun & Hwf1 & _).
        rewrite Hrun. by intros [= <-].
      * by rewrite (run_mutation_out_of_shape s x v m Hv Hin).
    + by rewrite (run_mutation_invalid s x m Hv).
  - destruct (backend_of s x) as [A|] eqn:HA.
    + destruct (backend_of s y) as [X|] eqn:HX.
      * destruct (decide (b_rows X = b_rows A /\ b_cols X = b_cols A)) as [[Hr Hc]|Hne].
        -- destruct (axpy_wf s x y A X alpha Hwf HA HX Hr Hc) as (s1 & Hrun & Hwf1 & _).
           rewrite Hrun. by intros [= <-].
        -- rewrite (axpy_mismatch s x y A X alpha HA HX); [done|].
           destruct (decide (b_rows X = b_rows A)); [|by left].
           destruct (decide (b_cols X = b_cols A)); [|by right].
           by destruct Hne.
      * unfold axpy, has_equal_shape. rewrite bind_assoc.
        rewrite (bind_ok _ _ _ _ _ (run_rows _ _ _ HA)).
        rewrite bind_assoc. erewrite bind_fail; [done|].
        by rewrite rows_outcome, HX.
    + unfold axpy, has_equal_shape. rewrite bind_assoc.
      erewrite bind_fail; [done|]. by rewrite rows_outcome, HA.
  - destruct (backend_of s x) as [v|] eqn:Hv.
    + destruct (decide (ii < b_rows v)) as [Hii|Hii].
      * destruct (clear_row_wf s x v ii Hwf Hv Hii) as (s1 & Hrun & Hwf1 & _).
        rewrite Hrun. by intros [= <-].
      * unfold clear_row. rewrite (bind_ok _ _ _ _ _ (run_rows _ _ _ Hv)).
        by destruct (Nat.leb_spec (b_rows v) ii) as [_|Hlt]; [|lia].
    + unfold clear_row. erewrite bind_fail; [done|]. by rewrite rows_outcome, Hv.
  - destruct (backend_of s x) as [v|] eqn:Hv.
    + destruct (decide (jj < b_cols v)) as [Hjj|Hjj].
      * destruct (clear_col_wf s x v jj Hwf Hv Hjj) as (s1 & Hrun & Hwf1 & _).
        rewrite Hrun. by intros [= <-].
      * unfold clear_col. rewrite (bind_ok _ _ _ _ _ (run_cols _ _ _ Hv)).
        by destruct (Nat.leb_spec (b_cols v) jj) as [_|Hlt]; [|lia].
    + unfold clear_col. erewrite bind_fail; [done|]. by rewrite cols_outcome, Hv.
  - destruct (backend_of s x) as [v|] eqn:Hv.
    + destruct (decide (ii < b_rows v)) as [Hii|Hii].
      * destruct (decide (ii < b_cols v)) as [Hc|Hc].
        -- destruct (unit_row_wf s x v ii Hwf Hv Hii Hc) as (s1 & Hrun & Hwf1 & _).
           rewrite Hrun. by intros [= <-].
        -- destruct (unit_row_beyond_cols_run s x v ii Hv Hii) as (s1 & Hrun & _); [lia|].
           by rewrite Hrun.
      * unfold unit_row. rewrite (bind_ok _ _ _ _ _ (run_rows _ _ _ Hv)).
        by destruct (Nat.leb_spec (b_rows v) ii) as [_|Hlt]; [|lia].
    + unfold unit_row. erewrite bind_fail; [done|]. by rewrite rows_outcome, Hv.
  - destruct (backend_of s x) as [v|] eqn:Hv.
    + destruct (decide (jj < b_cols v)) as [Hjj|Hjj].
      * destruct (decide (jj < b_rows v)) as [Hr|Hr].
        -- destruct (unit_col_wf s x v jj Hwf Hv Hr Hjj) as (s1 & Hrun & Hwf1 & _).
           rewrite Hrun. by intros [= <-].
        -- destruct (unit_col_beyond_rows_run s x v jj Hv Hjj) as (s1 & Hrun & _); [lia|].
           by rewrite Hrun.
      * unfold unit_col. rewrite (bind_ok _ _ _ _ _ (run_cols _ _ _ Hv)).
        by destruct (Nat.leb_spec (b_cols v) jj) as [_|Hlt]; [|lia].
    + unfold unit_col. erewrite bind_fail; [done|]. by rewrite cols_outcome, Hv.
Qed.

(** **** Statements about the further members *)

(** X4. [unit_row] and [unit_col] on a matrix that is not square. A row
    index [ii] with [cols() <= ii < rows()] passes the range check of
    [unit_row], so no [index_out_of_range] is raised; the row is zeroed and
    then the write of the diagonal entry [(ii, ii)], which the matrix does
    not have, stops at the index assertion of the backend. The same holds
    for [unit_col] and a column index [jj] with [rows() <= jj < cols()]. In
    both cases the zeroed row or column is what the object is left with. *)
Theorem unit_row_col_without_diagonal s (this : nat) v :
  backend_of s this = Some v ->
  (forall ii, ii < b_rows v -> b_cols v <= ii ->
     exists s',
       unit_row this ii s = (inl AssertionFailed, s')
       /\ forall i j, i < b_rows v -> j < b_cols v ->
            get_entry this i j s'
            = (inr (if Nat.eqb i ii then scalar_0 else coeff v i j), s'))
  /\ (forall jj, jj < b_cols v -> b_rows v <= jj ->
        exists s',
          unit_col this jj s = (inl AssertionFailed, s')
          /\ forall i j, i < b_rows v -> j < b_cols v ->
               get_entry this i j s'
               = (inr (if Nat.eqb j jj then scalar_0 else coeff v i j), s')).
Proof.
  intros Hv. split.
  - intros ii Hr Hc.
    destruct (unit_row_beyond_cols_run s this v ii Hv Hr Hc) as (s' & Hrun & Hv').
    exists s'. split; [done|]. intros i j Hi Hj.
    pose proof (set_all_shape (fun _ => ii) (fun jj => jj) scalar_0 (seq 0 (b_cols v)) v)
      as [Hsr Hsc].
    rewrite (run_get_entry _ _ _ i j Hv') by lia.
    rewrite set_all_coeff, existsb_seq_row.
    destruct (Nat.eqb i ii); [|done].
    by destruct (Nat.ltb_spec j (b_cols v)); [|lia].
  - intros jj Hc Hr.
    destruct (unit_col_beyond_rows_run s this v jj Hv Hc Hr) as (s' & Hrun & Hv').
    exists s'. split; [done|]. intros i j Hi Hj.
    pose proof (set_all_shape (fun ii => ii) (fun _ => jj) scalar_0 (seq 0 (b_rows v)) v)
      as [Hsr Hsc].
    rewrite (run_get_entry _ _ _ i j Hv') by lia.
    rewrite set_all_coeff, existsb_seq_col.
    destruct (Nat.eqb j jj); [|by rewrite andb_false_r].
    by destruct (Nat.ltb_spec i (b_rows v)); [|lia].
Qed.

(** X5. The row and column members write to a private backend. On a
    store whose reference counts are sound, a successful [clear_row],
    [clear_col], [unit_row] or [unit_col] leaves the reference counts sound
    and the object it was called on the only holder of its backend; no
    object is added or removed, and every other object denotes the matrix it
    denoted before, also one that shared its backend with the object. *)
Theorem row_col_members_private s (this : nat) v :
  well_formed s = true ->
  backend_of s this = Some v ->
  (forall ii, ii < b_rows v ->
     exists s', clear_row this ii s = (inr tt, s')
       /\ well_formed s' = true /\ sole_owner s' this /\ others_unchanged s s' this)
  /\ (forall jj, jj < b_cols v ->
        exists s', clear_col this jj s = (inr tt, s')
          /\ well_formed s' = true /\ sole_owner s' this /\ others_unchanged s s' this)
  /\ (forall ii, ii < b_rows v -> ii < b_cols v ->
        exists s', unit_row this ii s = (inr tt, s')
          /\ well_formed s' = true /\ sole_owner s' this /\ others_unchanged s s' this)
  /\ (forall jj, jj < b_rows v -> jj < b_cols v ->
        exists s', unit_col this jj s = (inr tt, s')
          /\ well_formed s' = true /\ sole_owner s' this /\ others_unchanged s s' this).
Proof.
  intros Hwf%well_formed_WF Hv. repeat split.
  - intros ii Hii.
    destruct (clear_row_wf s this v ii Hwf Hv Hii) as (s' & Hrun & Hwf' & [p Hown] & Hlen & Hoth).
    exists s'. split; [done|]. split; [by apply well_formed_WF|].
    split; [by eexists _, _|]. by split.
  - intros jj Hjj.
    destruct (clear_col_wf s this v jj Hwf Hv Hjj) as (s' & Hrun & Hwf' & [p Hown] & Hlen & Hoth).
    exists s'. split; [done|]. split; [by apply well_formed_WF|].
    split; [by eexists _, _|]. by split.
  - intros ii Hr Hc.
    destruct (unit_row_wf s this v ii Hwf Hv Hr Hc) as (s' & Hrun & Hwf' & [p Hown] & Hlen & Hoth).
    exists s'. split; [done|]. split; [by apply well_formed_WF|].
    split; [by eexists _, _|]. by split.
  - intros jj Hr Hc.
    destruct (unit_col_wf s this v jj Hwf Hv Hr Hc) as (s' & Hrun & Hwf' & [p Hown] & Hlen & Hoth).
    exists s'. split; [done|]. split; [by apply well_formed_WF|].
    split; [by eexists _, _|]. by split.
Qed.

(** X6. [copy()] is a deep copy. On a store whose reference counts are
    sound, [a.copy()] returns a new object that denotes the matrix of [a]
    and is the only holder of a backend of its own, while [a] and every
    other object keep their backend. Afterwards a [set_entry],
    [add_to_entry] or [scal] within the shape on the copy leaves [a] as it
    was, and one on [a] leaves the copy as it was. *)
Theorem copy_is_deep s (a : nat) (A : @BackendType ScalarImp) :
  well_formed s = true ->
  backend_of s a = Some A ->
  exists b s1,
    copy a s = (inr b, s1)
    /\ b = length (objs s)
    /\ well_formed s1 = true
    /\ sole_owner s1 b
    /\ backend_of s1 b = Some A
    /\ (forall y, y <> b -> objs s1 !! y = objs s !! y /\ backend_of s1 y = backend_of s y)
    /\ (forall m, mutation_in_shape (b_rows A) (b_cols A) m = true ->
          (exists s2, run_mutation b m s1 = (inr tt, s2)
             /\ backend_of s2 b = Some (apply_mutation A m)
             /\ backend_of s2 a = Some A)
          /\ (exists s2, run_mutation a m s1 = (inr tt, s2)
                /\ backend_of s2 a = Some (apply_mutation A m)
                /\ backend_of s2 b = Some A)).
Proof.
  intros Hwf%well_formed_WF HA.
  destruct (copy_spec s a A Hwf HA) as (s1 & Hrun & Hwf1 & Hown & Hlen & Hold).
  assert (Hab : a <> length (objs s)).
  { apply backend_of_Some in HA as (p & c & Ha & _). apply lookup_lt_Some in Ha. lia. }
  assert (HA1 : backend_of s1 a = Some A) by (by rewrite (proj2 (Hold a Hab))).
  pose proof (owns_backend_of _ _ _ _ Hown) as HB1.
  exists (length (objs s)), s1. split; [done|]. split; [done|].
  split; [by apply well_formed_WF|]. split; [by eexists _, _|].
  split; [done|]. split; [done|].
  intros m Hm. split.
  - destruct (run_mutation_spec s1 _ A m Hwf1 HB1 Hm) as (s2 & Hrun2 & _ & [p Hown2] & _ & Hoth).
    exists s2. split; [done|]. split; [by apply (owns_backend_of _ _ p)|].
    by rewrite Hoth.
  - destruct (run_mutation_spec s1 _ A m Hwf1 HA1 Hm) as (s2 & Hrun2 & _ & [p Hown2] & _ & Hoth).
    exists s2. split; [done|]. split; [by apply (owns_backend_of _ _ p)|].
    by rewrite Hoth.
Qed.

(** X7. Assignment of a backend does a deep copy. On a store whose
    reference counts are sound, [a = other] for a [BackendType] [other]
    makes [a] the only holder of a new backend that holds the matrix
    [other]; no object is added or removed, and every other object, also
    one that shared the former backend of [a], denotes what it denoted. *)
Theorem operator_assign_backend_deep s (a : nat) (other : @BackendType ScalarImp) :
  well_formed s = true ->
  a < length (objs s) ->
  exists s',
    operator_assign_backend a other s = (inr tt, s')
    /\ well_formed s' = true
    /\ owns s' a (length (heap s)) other
    /\ others_unchanged s s' a.
Proof.
  intros Hwf%well_formed_WF Ha.
  destruct (lookup_lt_is_Some_2 (objs s) a Ha) as [p Hp].
  destruct (move_assign_fresh s a p other Hwf Hp) as (s' & Hrun & Hwf' & Hown & Hlen & Hoth).
  exists s'. split; [done|]. split; [by apply well_formed_WF|]. split; [done|]. by split.
Qed.

(** X8. The copy constructor shares, the first write separates. On a store
    whose reference counts are sound, constructing [b] from an object [a]
    that denotes [A] gives a new object that holds the backend of [a]
    itself (no coefficients are copied). Afterwards a [set_entry],
    [add_to_entry] or [scal] within the shape on [b] changes [b] alone, and
    one on [a] changes [a] alone. *)
Theorem copy_construct_shares s (a : nat) (A : @BackendType ScalarImp) :
  well_formed s = true ->
  backend_of s a = Some A ->
  exists b s1,
    EigenDenseMatrix_copy_construct a s = (inr b, s1)
    /\ b = length (objs s)
    /\ well_formed s1 = true
    /\ objs s1 !! b = objs s1 !! a
    /\ length (heap s1) = length (heap s)
    /\ backend_of s1 b = Some A
    /\ (forall m, mutation_in_shape (b_rows A) (b_cols A) m = true ->
          (exists s2, run_mutation b m s1 = (inr tt, s2)
             /\ backend_of s2 b = Some (apply_mutation A m)
             /\ backend_of s2 a = Some A)
          /\ (exists s2, run_mutation a m s1 = (inr tt, s2)
                /\ backend_of s2 a = Some (apply_mutation A m)
                /\ backend_of s2 b = Some A)).
Proof.
  intros Hwf%well_formed_WF HA.
  apply backend_of_Some in HA as (p & c & Ha & Hp & HcA).
  destruct (copy_construct_spec s a p Hwf Ha) as (s1 & Hrun & Hwf1 & Hobjs & Hheap).
  pose proof (lookup_lt_Some _ _ _ Ha) as Halt.
  assert (Hab : a <> length (objs s)) by lia.
  assert (Ha1 : objs s1 !! a = Some p) by (by rewrite Hobjs, lookup_app_l).
  assert (Hb1 : objs s1 !! length (objs s) = Some p).
  { by rewrite Hobjs, lookup_app_r, Nat.sub_diag. }
  assert (Hp1 : exists c1, heap s1 !! p = Some c1 /\ pointee c1 = A).
  { specialize (Hheap p). rewrite Hp in Hheap. simpl in Hheap.
    destruct (heap s1 !! p) as [c1|]; [|done]. simpl in Hheap.
    exists c1. split; [done|]. congruence. }
  destruct Hp1 as (c1 & Hp1 & Hc1).
  assert (HA1 : backend_of s1 a = Some A) by (apply backend_of_Some; by exists p, c1).
  assert (HB1 : backend_of s1 (length (objs s)) = Some A)
    by (apply backend_of_Some; by exists p, c1).
  exists (length (objs s)), s1. split; [done|]. split; [done|].
  split; [by apply well_formed_WF|]. split; [congruence|].
  split.
  { apply Nat.le_antisymm.
    - destruct (decide (length (heap s1) <= length (heap s))); [done|].
      destruct (lookup_lt_is_Some_2 (heap s1) (length (heap s))) as [c2 Hc2]; [lia|].
      specialize (Hheap (length (heap s))). rewrite Hc2 in Hheap.
      by rewrite (lookup_ge_None_2 (heap s)) in Hheap.
    - destruct (decide (length (heap s) <= length (heap s1))); [done|].
      destruct (lookup_lt_is_Some_2 (heap s) (length (heap s1))) as [c2 Hc2]; [lia|].
      specialize (Hheap (length (heap s1))). rewrite Hc2 in Hheap.
      by rewrite (lookup_ge_None_2 (heap s1)) in Hheap. }
  split; [done|].
  intros m Hm. split.
  - destruct (run_mutation_spec s1 _ A m Hwf1 HB1 Hm) as (s2 & Hrun2 & _ & [q Hown2] & _ & Hoth).
    exists s2. split; [done|]. split; [by apply (owns_backend_of _ _ q)|].
    by rewrite Hoth.
  - destruct (run_mutation_spec s1 _ A m Hwf1 HA1 Hm) as (s2 & Hrun2 & _ & [q Hown2] & _ & Hoth).
    exists s2. split; [done|]. split; [by apply (owns_backend_of _ _ q)|].
    by rewrite Hoth.
Qed.

(** X9. [backend()] separates, [data()] does not. Let two different
    objects [a] and [b] hold the same backend, at the address [p], in a
    store whose reference counts are sound. Then [b.data()] is the address
    [p], which [a] holds as well, and the store is left as it is: whatever
    is written through that pointer is written to the matrix of [a] too. In
    contrast [b.backend()] returns an address different from [p], of a copy
    of the matrix that [b] alone holds, and [a] still holds [p]. *)
Theorem data_shares_backend_copies s (a b p : nat) c :
  well_formed s = true ->
  a <> b ->
  objs s !! a = Some p -> objs s !! b = Some p -> heap s !! p = Some c ->
  data b s = (inr p, s)
  /\ exists s' p',
       backend b s = (inr p', s')
       /\ p' <> p
       /\ owns s' b p' (pointee c)
       /\ objs s' !! a = Some p
       /\ backend_of s' a = Some (pointee c).
Proof.
  intros Hwf%well_formed_WF Hab Ha Hb Hp. split.
  - by apply run_backend_ptr.
  - destruct (ensure_uniqueness_spec s b p c Hwf Hb Hp)
      as (s' & p' & Hrun & Hwf' & Hown & Hlen & Hobjs & Hpres).
    exists s', p'. unfold backend. rewrite (bind_ok _ _ _ _ _ Hrun).
    assert (Ha' : objs s' !! a = Some p) by (by rewrite Hobjs).
    split; [apply run_backend_ptr, Hown|].
    split.
    { intros ->. destruct Hown as (_ & _ & Hex). by apply (Hex a). }
    split; [done|]. split; [done|].
    destruct (Hpres p c Hp) as (c1 & Hp1 & Hc1).
    apply backend_of_Some. by exists p, c1.
Qed.

(** X10. [axpy] changes [this] alone. On a store whose reference counts
    are sound, let [this] denote [A] and [xx] denote [X] of the same shape.
    Then [this.axpy(alpha, xx)] succeeds, [this] denotes
    [A + alpha * X] afterwards, on a backend that it alone holds, and every
    other object denotes what it denoted; this covers an [xx] that shared
    its backend with [this], and for [xx] being [this] itself the entries
    become [A(i,j) + alpha * A(i,j)]. *)
Theorem axpy_changes_only_this s (this xx : nat) (A X : @BackendType ScalarImp)
    (alpha : ScalarImp) :
  well_formed s = true ->
  backend_of s this = Some A ->
  backend_of s xx = Some X ->
  b_rows X = b_rows A -> b_cols X = b_cols A ->
  exists s',
    axpy this alpha xx s = (inr tt, s')
    /\ well_formed s' = true
    /\ sole_owner s' this
    /\ others_unchanged s s' this
    /\ (forall i j, i < b_rows A -> j < b_cols A ->
          get_entry this i j s'
          = (inr (plus (coeff A i j) (times alpha (coeff X i j))), s'))
    /\ (xx <> this -> backend_of s' xx = Some X).
Proof.
  intros Hwf%well_formed_WF HA HX Hr Hc.
  destruct (axpy_wf s this xx A X alpha Hwf HA HX Hr Hc)
    as (s' & Hrun & Hwf' & [p Hown] & Hlen & Hoth).
  exists s'. split; [done|]. split; [by apply well_formed_WF|].
  split; [by eexists _, _|]. split; [by split|]. split.
  - intros i j Hi Hj.
    by rewrite (run_get_entry _ _ _ i j (owns_backend_of _ _ _ _ Hown)).
  - intros Hne. by rewrite Hoth.
Qed.

(** X11. Reading never copies. Whatever their outcome, [rows], [cols],
    [get_entry], [has_equal_shape] and [data] leave the store exactly as it
    was: no backend is copied and no use count changes, also when the
    backend is shared. *)
Theorem readers_keep_store s (this other ii jj : nat) :
  snd (rows this s) = s
  /\ snd (cols this s) = s
  /\ snd (get_entry this ii jj s) = s
  /\ snd (has_equal_shape this other s) = s
  /\ snd (data this s) = s.
Proof.
  split; [|split; [|split; [|split]]].
  - rewrite rows_outcome. by destruct (backend_of s this).
  - rewrite cols_outcome. by destruct (backend_of s this).
  - unfold get_entry, bind. rewrite rows_outcome.
    destruct (backend_of s this) as [v|]; [|done].
    destruct (Nat.ltb ii (b_rows v)); [|done]. simpl.
    rewrite cols_outcome. destruct (backend_of s this) as [v'|]; [|done].
    destruct (Nat.ltb jj (b_cols v')); [|done]. simpl.
    unfold backend_ptr. destruct (objs s !! this) as [p|]; [|done].
    unfold eigen_get, bind, deref. destruct (heap s !! p) as [c|]; [|done].
    by destruct (in_shape (pointee c) ii jj).
  - unfold has_equal_shape. unfold bind at 1. rewrite rows_outcome.
    destruct (backend_of s this) as [v|] eqn:Hv; [|done].
    unfold bind at 1. rewrite rows_outcome.
    destruct (backend_of s other) as [w|] eqn:Hw; [|done].
    unfold bind at 1. rewrite cols_outcome, Hv.
    unfold bind. by rewrite cols_outcome, Hw.
  - unfold data, backend_ptr. by destruct (objs s !! this).
Qed.

(** X12. The entry members guard their indices by assertions. For an
    object that denotes [v] and indices with [ii >= rows()] or
    [jj >= cols()], [set_entry], [add_to_entry] and [get_entry] stop at an
    assertion, not at an exception, and they do so before the backend is
    touched: the store is left as it was, and a shared backend stays
    shared. *)
Theorem entry_index_asserted s (this : nat) v (ii jj : nat) (value : ScalarImp) :
  backend_of s this = Some v ->
  b_rows v <= ii \/ b_cols v <= jj ->
  set_entry this ii jj value s = (inl AssertionFailed, s)
  /\ add_to_entry this ii jj value s = (inl AssertionFailed, s)
  /\ get_entry this ii jj s = (inl AssertionFailed, s).
Proof.
  intros Hv Hout.
  assert (Hsh : Nat.ltb ii (b_rows v) && Nat.ltb jj (b_cols v) = false).
  { apply andb_false_iff. rewrite !Nat.ltb_ge. tauto. }
  split; [|split].
  - by apply (run_mutation_out_of_shape s this v (SetEntry ii jj value)).
  - by apply (run_mutation_out_of_shape s this v (AddToEntry ii jj value)).
  - unfold get_entry.
    rewrite (bind_ok _ _ _ _ _ (run_rows _ _ _ Hv)).
    destruct (Nat.ltb ii (b_rows v)); [|done]. rewrite (bind_ok _ _ s tt s) by done.
    rewrite (bind_ok _ _ _ _ _ (run_cols _ _ _ Hv)).
    simpl in Hsh. by rewrite Hsh.
Qed.

Lemma run_calls_WF (cs : list call) s s' :
  WF s -> run_calls cs s = (inr tt, s') -> WF s'.
Proof.
  revert s. induction cs as [|c0 cs IH]; intros s Hwf; simpl.
  - by intros [= <-].
  - unfold bind. destruct (run_call c0 s) as [[e|[]] s1] eqn:Hrun; [done|].
    apply IH. by apply (run_call_WF c0 s).
Qed.

(** X13. The reference counts stay sound. Starting from a store whose
    reference counts are sound, in particular from the empty store, every
    sequence of constructions, copies, assignments and mutating calls that
    runs to its end leaves a store whose reference counts are sound, and in
    which the backend of every object is there and has a positive use
    count: no object is left with a backend that was released. *)
Theorem reference_counts_stay_sound (cs : list call) s s' :
  well_formed s = true ->
  run_calls cs s = (inr tt, s') ->
  well_formed s' = true
  /\ forall x p, objs s' !! x = Some p ->
       exists c, heap s' !! p = Some c /\ 1 <= use_count c.
Proof.
  intros Hwf%well_formed_WF Hrun.
  pose proof (run_calls_WF cs s s' Hwf Hrun) as Hwf'.
  split; [by apply well_formed_WF|].
  intros x p Hx. destruct Hwf' as [Hptr Hcnt].
  destruct (lookup_lt_is_Some_2 (heap s') p (Hptr _ _ Hx)) as [c Hc].
  exists c. split; [done|].
  pose proof (holders_pos _ _ _ Hx). specialize (Hcnt _ _ Hc). lia.
Qed.
End EigenDenseMatrix_more_facts.

Section EigenDenseMatrix_members_double.
Import LA.

Lemma clear_row_in_range_witness :
  exists s',
    clear_row 0 1 tall_and_wide = (inr tt, s')
    /\ forall i j, i < 3 -> j < 2 ->
         get_entry 0 i j s'
         = (inr (if Nat.eqb i 1 then PrimFloat.zero else coeff tall i j), s').
Proof.
  assert (Hii : 1 < 3) by lia.
  exact (clear_row_in_range tall_and_wide 0 tall 1 eq_refl Hii).
Defined.

Lemma clear_col_in_range_witness :
  exists s',
    clear_col 0 1 tall_and_wide = (inr tt, s')
    /\ forall i j, i < 3 -> j < 2 ->
         get_entry 0 i j s'
         = (inr (if Nat.eqb j 1 then PrimFloat.zero else coeff tall i j), s').
Proof.
  assert (Hjj : 1 < 2) by lia.
  exact (clear_col_in_range tall_and_wide 0 tall 1 eq_refl Hjj).
Defined.

Lemma unit_col_in_range_witness :
  exists s',
    unit_col 0 1 tall_and_wide = (inr tt, s')
    /\ forall i j, i < 3 -> j < 2 ->
         get_entry 0 i j s'
         = (inr (if Nat.eqb j 1
                 then (if Nat.eqb i 1 then PrimFloat.one else PrimFloat.zero)
                 else coeff tall i j), s').
Proof.
  assert (Hr : 1 < 3) by lia. assert (Hc : 1 < 2) by lia.
  exact (unit_col_in_range tall_and_wide 0 tall 1 eq_refl Hr Hc).
Defined.

Lemma unit_row_col_without_diagonal_witness :
  exists s',
    unit_row 0 2 tall_and_wide = (inl AssertionFailed, s')
    /\ forall i j, i < 3 -> j < 2 ->
         get_entry 0 i j s'
         = (inr (if Nat.eqb i 2 then PrimFloat.zero else coeff tall i j), s').
Proof.
  destruct (unit_row_col_without_diagonal tall_and_wide 0 tall eq_refl) as [Hrow _].
  apply (Hrow 2); simpl; lia.
Defined.

Lemma row_col_members_private_witness :
  exists s', clear_row 0 1 shared_pair = (inr tt, s')
    /\ well_formed s' = true /\ sole_owner s' 0 /\ others_unchanged shared_pair s' 0.
Proof.
  destruct (row_col_members_private shared_pair 0 (zero_backend 2 2) eq_refl eq_refl)
    as [Hrow _].
  apply (Hrow 1). simpl. lia.
Defined.

Lemma copy_is_deep_witness :
  exists b s1,
    copy 0 tall_and_wide = (inr b, s1)
    /\ b = 2
    /\ well_formed s1 = true
    /\ sole_owner s1 b
    /\ backend_of s1 b = Some tall
    /\ (forall y, y <> b ->
          objs s1 !! y = objs tall_and_wide !! y
          /\ backend_of s1 y = backend_of tall_and_wide y)
    /\ (forall m, mutation_in_shape 3 2 m = true ->
          (exists s2, run_mutation b m s1 = (inr tt, s2)
             /\ backend_of s2 b = Some (apply_mutation tall m)
             /\ backend_of s2 0 = Some tall)
          /\ (exists s2, run_mutation 0 m s1 = (inr tt, s2)
                /\ backend_of s2 0 = Some (apply_mutation tall m)
                /\ backend_of s2 b = Some tall)).
Proof. exact (copy_is_deep tall_and_wide 0 tall eq_refl eq_refl). Defined.

Lemma operator_assign_backend_deep_witness :
  exists s',
    operator_assign_backend 1 tall shared_pair = (inr tt, s')
    /\ well_formed s' = true
    /\ owns s' 1 2 tall
    /\ others_unchanged shared_pair s' 1.
Proof.
  assert (Ha : 1 < 2) by lia.
  exact (operator_assign_backend_deep shared_pair 1 tall eq_refl Ha).
Defined.

Lemma copy_construct_shares_witness :
  exists b s1,
    EigenDenseMatrix_copy_construct 0 tall_and_wide = (inr b, s1)
    /\ b = 2
    /\ well_formed s1 = true
    /\ objs s1 !! b = objs s1 !! 0
    /\ length (heap s1) = 2
    /\ backend_of s1 b = Some tall
    /\ (forall m, mutation_in_shape 3 2 m = true ->
          (exists s2, run_mutation b m s1 = (inr tt, s2)
             /\ backend_of s2 b = Some (apply_mutation tall m)
             /\ backend_of s2 0 = Some tall)
          /\ (exists s2, run_mutation 0 m s1 = (inr tt, s2)
                /\ backend_of s2 0 = Some (apply_mutation tall m)
                /\ backend_of s2 b = Some tall)).
Proof. exact (copy_construct_shares tall_and_wide 0 tall eq_refl eq_refl). Defined.

Lemma data_shares_backend_copies_witness :
  data 1 shared_pair = (inr 0, shared_pair)
  /\ exists s' p',
       backend 1 shared_pair = (inr p', s')
       /\ p' <> 0
       /\ owns s' 1 p' (zero_backend 2 2)
       /\ objs s' !! 0 = Some 0
       /\ backend_of s' 0 = Some (zero_backend 2 2).
Proof.
  assert (Hab : 0 <> 1) by lia.
  exact (data_shares_backend_copies shared_pair 0 1 0
           {| pointee := zero_backend 2 2; use_count := 2 |}
           eq_refl Hab eq_refl eq_refl eq_refl).
Defined.

Lemma axpy_changes_only_this_witness :
  exists s',
    axpy 0 PrimFloat.two 1 shared_pair = (inr tt, s')
    /\ well_formed s' = true
    /\ sole_owner s' 0
    /\ others_unchanged shared_pair s' 0
    /\ (forall i j, i < 2 -> j < 2 ->
          get_entry 0 i j s'
          = (inr (PrimFloat.add PrimFloat.zero
                    (PrimFloat.mul PrimFloat.two PrimFloat.zero)), s'))
    /\ (1 <> 0 -> backend_of s' 1 = Some (zero_backend 2 2)).
Proof.
  exact (axpy_changes_only_this shared_pair 0 1 (zero_backend 2 2) (zero_backend 2 2)
           PrimFloat.two eq_refl eq_refl eq_refl eq_refl eq_refl).
Defined.

Lemma entry_index_asserted_witness :
  set_entry 0 3 0 PrimFloat.one tall_and_wide = (inl AssertionFailed, tall_and_wide)
  /\ add_to_entry 0 3 0 PrimFloat.one tall_and_wide = (inl AssertionFailed, tall_and_wide)
  /\ get_entry 0 3 0 tall_and_wide = (inl AssertionFailed, tall_and_wide).
Proof.
  apply (entry_index_asserted tall_and_wide 0 tall 3 0 PrimFloat.one eq_refl).
  left. simpl. lia.
Defined.

Lemma reference_counts_stay_sound_witness :
  well_formed (final_state (run_calls example_program) empty_state) = true
  /\ forall x p,
       objs (final_state (run_calls example_program) empty_state) !! x = Some p ->
       exists c, heap (final_state (run_calls example_program) empty_state) !! p = Some c
                 /\ 1 <= use_count c.
Proof.
  apply (reference_counts_stay_sound example_program empty_state).
  - reflexivity.
  - vm_compute. reflexivity.
Defined.
End EigenDenseMatrix_members_double.

(** ** SparsityPatternDefault *)

Section SparsityPattern_facts.
Import LA.
Context {ElementType : Type} `{ScalarType ElementType}.

Lemma compress_fold_elem (matrix_get : nat -> nat -> ElementType) threshhold row
    (cols : list nat) (acc : gset nat) (c : nat) :
  c ∈ fold_left
        (fun compressedRowSet col =>
           let absValue := std_abs (matrix_get row col) in
           if greater absValue threshhold
           then {[ col ]} ∪ compressedRowSet
           else compressedRowSet) cols acc
  <-> c ∈ acc \/ (c ∈ cols /\ less threshhold (std_abs (matrix_get row c)) = true).
Proof.
  revert acc. induction cols as [|col cols IH]; intros acc; simpl.
  - rewrite elem_of_nil. tauto.
  - rewrite IH, elem_of_cons. unfold greater.
    destruct (less threshhold (std_abs (matrix_get row col))) eqn:Hc.
    + rewrite elem_of_union, elem_of_singleton. split.
      * intros [[->|?]|[? ?]]; eauto.
      * intros [?|[[->|?] ?]]; eauto.
    + split.
      * intros [?|[? ?]]; eauto.
      * intros [?|[[->|?] ?]]; eauto. congruence.
Qed.

Lemma compress_row_elem (matrix_get : nat -> nat -> ElementType) threshhold row
    (u : gset nat) (c : nat) :
  c ∈ compress_row matrix_get threshhold row u ∅
  <-> c ∈ u /\ less threshhold (std_abs (matrix_get row c)) = true.
Proof.
  unfold compress_row. rewrite compress_fold_elem, elem_of_elements.
  split; [intros [?|?]; [set_solver|done]|by right].
Qed.

Lemma compress_rows_lookup (p : SparsityPatternDefault)
    (matrix_get : nat -> nat -> ElementType) threshhold (n r : nat)
    (init : SparsityPatternDefault) :
  n <= length p -> length init = length p ->
  fold_left
    (fun compressedPattern row =>
       match set p row with
       | Some uncompressedRowSet =>
           alter (compress_row matrix_get threshhold row uncompressedRowSet)
             row compressedPattern
       | None => compressedPattern
       end) (seq 0 n) init !! r
  = if Nat.ltb r n
    then match p !! r, init !! r with
         | Some u, Some q => Some (compress_row matrix_get threshhold r u q)
         | _, _ => None
         end
    else init !! r.
Proof.
  intros Hn Hlen. induction n as [|n IH].
  - done.
  - rewrite seq_S, fold_left_app. simpl. unfold set at 1.
    destruct (lookup_lt_is_Some_2 p n) as [u Hu]; [lia|]. rewrite Hu.
    destruct (decide (r = n)) as [->|Hne].
    + rewrite list_lookup_alter_eq, IH by lia.
      destruct (Nat.ltb_spec n n); [lia|].
      destruct (Nat.ltb_spec n (S n)); [|lia].
      rewrite Hu. by destruct (init !! n).
    + rewrite list_lookup_alter_ne, IH by lia.
      destruct (Nat.ltb_spec r n), (Nat.ltb_spec r (S n)); try lia; done.
Qed.

Lemma compress_rows_length (p : SparsityPatternDefault)
    (matrix_get : nat -> nat -> ElementType) threshhold (ks : list nat)
    (init : SparsityPatternDefault) :
  length (fold_left
            (fun compressedPattern row =>
               match set p row with
               | Some uncompressedRowSet =>
                   alter (compress_row matrix_get threshhold row uncompressedRowSet)
                     row compressedPattern
               | None => compressedPattern
               end) ks init)
  = length init.
Proof.
  revert init. induction ks as [|k ks IH]; intros init; simpl; [done|].
  rewrite IH. destruct (set p k); [apply length_alter|done].
Qed.

(** C10. [createCompressedSparsityPattern]. For a threshold that is not
    less than zero the function returns a pattern with as many rows as the
    uncompressed one, in which a column [c] belongs to row [r] if and only
    if [c] belongs to row [r] of the uncompressed pattern and
    [std::abs(matrix.get(r, c)) > threshhold]. With the threshold
    [ElementType(0)] a column whose entry is [ElementType(0)] is dropped
    (the absolute value of zero is not greater than zero). *)
Theorem createCompressedSparsityPattern_spec (p : SparsityPatternDefault)
    (matrix_get : nat -> nat -> ElementType) (threshhold : ElementType) :
  less threshhold scalar_0 = false ->
  less scalar_0 (std_abs scalar_0) = false ->
  exists q,
    createCompressedSparsityPattern p matrix_get threshhold = Some q
    /\ size q = size p
    /\ (forall r u, set p r = Some u ->
          exists qr, set q r = Some qr
            /\ (forall c, c ∈ qr <->
                  c ∈ u /\ greater (std_abs (matrix_get r c)) threshhold = true)
            /\ (threshhold = scalar_0 ->
                forall c, matrix_get r c = scalar_0 -> c ∉ qr)).
Proof.
  intros Ht Hz. unfold createCompressedSparsityPattern. rewrite Ht.
  eexists. split; [reflexivity|].
  assert (Hlen : length (SparsityPatternDefault_new (size p)) = length p).
  { unfold SparsityPatternDefault_new. by rewrite length_replicate. }
  split.
  - unfold size. by rewrite compress_rows_length.
  - intros r u Hu. unfold set in *.
    pose proof (lookup_lt_Some _ _ _ Hu) as Hr.
    rewrite (compress_rows_lookup p matrix_get threshhold (size p) r) by done.
    unfold size. destruct (Nat.ltb_spec r (length p)); [|lia].
    rewrite Hu. unfold SparsityPatternDefault_new.
    rewrite lookup_replicate_2 by done.
    eexists. split; [reflexivity|]. split.
    + intros c. unfold greater. apply compress_row_elem.
    + intros -> c Hc. rewrite compress_row_elem, Hc, Hz. by intros [_ ?].
Qed.
End SparsityPattern_facts.

Section SparsityPattern_more.
Import LA.
Context {ElementType : Type} `{ScalarType ElementType}.

(** X17. Compressing is idempotent. If [q] is the compressed pattern of
    [p] for a matrix and a threshold, then compressing [q] for the same
    matrix and threshold gives [q] again. *)
Theorem createCompressedSparsityPattern_idempotent (p q : SparsityPatternDefault)
    (matrix_get : nat -> nat -> ElementType) (threshhold : ElementType) :
  createCompressedSparsityPattern p matrix_get threshhold = Some q ->
  createCompressedSparsityPattern q matrix_get threshhold = Some q.
Proof.
  unfold createCompressedSparsityPattern.
  destruct (less threshhold scalar_0); [done|]. intros [= Hq]. f_equal.
  assert (Hnew : forall n, length (SparsityPatternDefault_new n) = n).
  { intros n. unfold SparsityPatternDefault_new. by rewrite length_replicate. }
  assert (Hlen : length q = length p).
  { rewrite <- Hq. rewrite compress_rows_length. apply Hnew. }
  assert (Hrow : forall r, q !! r
            = match p !! r with
              | Some u => Some (compress_row matrix_get threshhold r u ∅)
              | None => None
              end).
  { intros r. rewrite <- Hq.
    rewrite (compress_rows_lookup p matrix_get threshhold (size p) r)
      by (unfold size; rewrite ?Hnew; done).
    unfold size, SparsityPatternDefault_new.
    destruct (Nat.ltb_spec r (length p)) as [Hr|Hr].
    - rewrite lookup_replicate_2 by done.
      by destruct (lookup_lt_is_Some_2 p r Hr) as [u ->].
    - rewrite (lookup_ge_None_2 p) by done. apply lookup_replicate_None. lia. }
  apply list_eq. intros r.
  rewrite (compress_rows_lookup q matrix_get threshhold (size q) r)
    by (unfold size; rewrite ?Hnew; done).
  unfold size, SparsityPatternDefault_new.
  destruct (Nat.ltb_spec r (length q)) as [Hr|Hr].
  - rewrite lookup_replicate_2 by done. rewrite Hrow.
    destruct (p !! r) as [u|]; [|done]. f_equal.
    apply set_eq. intros c. rewrite !compress_row_elem. tauto.
  - rewrite (lookup_ge_None_2 q) by done. apply lookup_replicate_None. lia.
Qed.
End SparsityPattern_more.

(** For [double] an entry that compares equal to zero, of either sign, is not
    greater than the threshold zero. *)
Lemma double_zero_not_greater (x : float) :
  PrimFloat.is_zero x = true ->
  LA.greater (std_abs x) (scalar_0 : float) = false.
Proof.
  unfold PrimFloat.is_zero, LA.greater. simpl.
  rewrite FloatAxioms.eqb_spec, FloatAxioms.ltb_spec, FloatAxioms.abs_spec.
  destruct (Prim2SF x) as [sx|sx| |sx m e]; try done.
  all: by destruct sx.
Qed.

(** ** ExtendedParameterTree *)

Section ExtendedParameterTree_facts.
Import Common.
Context {BaseType T : Type} `{ParameterTree BaseType T}.
Variable highlightString : string -> nat -> string.
Variable show : T -> string.
Hypothesis contract : base_contract.

(** C8, as the code has it. For a key that is absent, [get< T >(_key)]
    raises the [RangeError] of [ExtendedParameterTree], whose text names
    the key and reports the tree, and [get(_key, defaultValue)] does not
    raise: it returns [defaultValue] and writes one warning line to
    [std::cout] (with the default value in it for the overloads on
    [std::string], [const char*], [int] and [double]). For a key that is
    present all of them hand on what [get< T >(_key)] of the base class
    gives, and nothing is written: the stored value if the base class
    returns one, and the exception of the base class if it raises. So
    [get< T >(_key)] raises a [RangeError] exactly if the key is absent or
    the base class raises one for it. *)
Theorem get_missing_key (this : BaseType) (_key : string) (defaultValue : T) :
  (hasKey this _key = false ->
     get this _key
     = inl (RangeError
              (String (ascii_of_nat 10) "ERROR: key '" ++ _key
                 ++ "' missing  in the following Dune::ParameterTree:"
                 ++ endl ++ reportString this "  ")%string)
     /\ get_default highlightString this _key defaultValue
        = (inr defaultValue,
           [ highlightString "WARNING:" 9;
             (" missing key '" ++ _key ++ "' is replaced by given default value!")%string;
             endl ])
     /\ get_typed highlightString show this _key defaultValue
        = (inr defaultValue,
           [ highlightString "WARNING:" 9;
             (" missing key '" ++ _key ++ "' is replaced by given default value '"
                ++ show defaultValue ++ "'!")%string;
             endl ]))
  /\ (hasKey this _key = true ->
        get this _key = BaseType_get this _key
        /\ get_default highlightString this _key defaultValue
           = (BaseType_get this _key, [])
        /\ get_typed highlightString show this _key defaultValue
           = (BaseType_get this _key, []))
  /\ (forall v, hasKey this _key = true -> BaseType_get this _key = inr v ->
        get this _key = inr v
        /\ get_default highlightString this _key defaultValue = (inr v, [])
        /\ get_typed highlightString show this _key defaultValue = (inr v, []))
  /\ ((exists what, get this _key = inl (RangeError what))
      <-> hasKey this _key = false
          \/ exists what, BaseType_get this _key = inl (RangeError what)).
Proof.
  assert (Hpresent : hasKey this _key = true ->
            get this _key = BaseType_get this _key
            /\ get_default highlightString this _key defaultValue
               = (BaseType_get this _key, [])
            /\ get_typed highlightString show this _key defaultValue
               = (BaseType_get this _key, [])).
  { intros Hk. unfold get, get_default, get_typed.
    by rewrite (get_default_spec contract), Hk. }
  split; [|split; [done|split]].
  - intros Hk. unfold get, get_default, get_typed.
    by rewrite (get_default_spec contract), Hk.
  - intros v Hk Hv. destruct (Hpresent Hk) as (-> & -> & ->). by rewrite Hv.
  - split.
    + intros [what Hget]. destruct (hasKey this _key) eqn:Hk; [|by left].
      right. exists what. by rewrite <- (proj1 (Hpresent eq_refl)).
    + intros [Hk|[what Hbase]].
      * unfold get. rewrite Hk. simpl. eauto.
      * destruct (hasKey this _key) eqn:Hk.
        -- exists what. by rewrite (proj1 (Hpresent eq_refl)).
        -- unfold get. rewrite Hk. simpl. eauto.
Qed.
End ExtendedParameterTree_facts.

(** ** readSparseMatrix *)

Section readSparseMatrix_facts.
Import Stuff.
Context {SparseMatrixImpl : Type} `{SparseMatrix SparseMatrixImpl}.
Variable extract : list ascii -> float -> float.
Variable show_double : float -> list ascii.

Lemma index_of_comma_free (f : list ascii) :
  comma_free f = true -> index_of comma f = None.
Proof.
  induction f as [|c f IH]; simpl; [done|].
  intros [Hc Hf]%andb_true_iff. apply negb_true_iff in Hc. rewrite Hc.
  by rewrite IH.
Qed.

Lemma index_of_comma_app (f rest : list ascii) :
  comma_free f = true -> index_of comma (f ++ comma :: rest) = Some (length f).
Proof.
  induction f as [|c f IH]; simpl.
  - done.
  - intros [Hc Hf]%andb_true_iff. apply negb_true_iff in Hc. rewrite Hc.
    by rewrite IH.
Qed.

Lemma join_fields_cons (f g : list ascii) (fs : list (list ascii)) :
  join_fields (f :: g :: fs) = f ++ comma :: join_fields (g :: fs).
Proof. done. Qed.

Lemma tokens_loop_fields (fields : list (list ascii)) :
  fields <> [] ->
  forallb comma_free fields = true ->
  forall (fuel : nat) (pre : list ascii) (temp : float) (acc : list float),
    length fields <= fuel ->
    tokens_loop extract fuel (pre ++ join_fields fields) (length pre)
      (find_first_of (pre ++ join_fields fields) comma (length pre)) temp acc
    = Some (acc ++ extract_all extract temp fields).
Proof.
  induction fields as [|f fields IH]; [done|]. intros _ Hfree.
  simpl in Hfree. apply andb_true_iff in Hfree as [Hf Hfree].
  intros fuel pre temp acc Hfuel.
  destruct fuel as [|fuel]; [simpl in Hfuel; lia|].
  destruct fields as [|g fields].
  - simpl join_fields. set (row := pre ++ f).
    assert (Hfind : find_first_of row comma (length pre) = None).
    { unfold find_first_of, row. by rewrite drop_app_length, (index_of_comma_free _ Hf). }
    assert (Hsub : substr row (length pre) (length row - length pre) = f).
    { unfold substr, row. rewrite drop_app_length, length_app.
      replace (length pre + length f - length pre) with (length f) by lia.
      apply firstn_all. }
    cbn [tokens_loop]. rewrite !Hfind. cbv beta iota.
    by rewrite Hsub, Nat.eqb_refl.
  - rewrite join_fields_cons.
    set (row := pre ++ f ++ comma :: join_fields (g :: fields)).
    assert (Hfind : find_first_of row comma (length pre) = Some (length pre + length f)).
    { unfold find_first_of, row. by rewrite drop_app_length, (index_of_comma_app _ _ Hf). }
    assert (Hsub : substr row (length pre) (length pre + length f - length pre) = f).
    { unfold substr, row. rewrite drop_app_length.
      replace (length pre + length f - length pre) with (length f) by lia.
      apply take_app_length. }
    assert (Hlen : Nat.eqb (length pre + length f + 1) (length row + 1) = false).
    { apply Nat.eqb_neq. unfold row. rewrite !length_app. simpl. lia. }
    cbn [tokens_loop]. rewrite !Hfind. cbv beta iota.
    rewrite Hsub, Hlen.
    assert (Hrow : row = (pre ++ f ++ [comma]) ++ join_fields (g :: fields)).
    { unfold row. by rewrite <- !app_assoc. }
    assert (Hpre : length pre + length f + 1 = length (pre ++ f ++ [comma])).
    { rewrite !length_app. simpl. lia. }
    rewrite Hrow, Hpre.
    rewrite IH; [|done|done|simpl in *; lia].
    by rewrite <- app_assoc.
Qed.

Lemma read_row_fields (temp : float) (fields : list (list ascii)) :
  fields <> [] ->
  forallb comma_free fields = true ->
  read_row extract temp (join_fields fields) = Some (extract_all extract temp fields).
Proof.
  intros Hne Hfree. unfold read_row.
  apply (tokens_loop_fields fields Hne Hfree _ [] temp []).
  clear Hne. induction fields as [|f [|g fields] IH]; simpl in *; [lia..|].
  apply andb_true_iff in Hfree as [_ Hfree]. specialize (IH Hfree).
  rewrite length_app. simpl. lia.
Qed.

Lemma split_fields_nonempty (row : list ascii) : split_fields row <> [].
Proof.
  induction row as [|c row IH]; simpl; [done|].
  destruct (Ascii.eqb c comma); [done|]. by destruct (split_fields row).
Qed.

Lemma split_fields_comma_free (row : list ascii) :
  forallb comma_free (split_fields row) = true.
Proof.
  induction row as [|c row IH]; simpl; [done|].
  destruct (Ascii.eqb c comma) eqn:Hc; [done|].
  destruct (split_fields row) as [|f fields]; simpl in *.
  - by rewrite Hc.
  - by rewrite Hc.
Qed.

Lemma join_split_fields (row : list ascii) :
  join_fields (split_fields row) = row.
Proof.
  induction row as [|c row IH]; [done|].
  pose proof (split_fields_nonempty row) as Hne.
  cbn [split_fields].
  destruct (Ascii.eqb_spec c comma) as [->|Hc].
  - destruct (split_fields row) as [|f fields]; [done|].
    rewrite join_fields_cons, IH. done.
  - destruct (split_fields row) as [|f [|g fields]]; [done|..].
    + cbn [join_fields] in *. by rewrite IH.
    + rewrite join_fields_cons in IH. rewrite join_fields_cons.
      rewrite <- IH. done.
Qed.

(** The loop over a row ends for every row, with one value for each of its
    comma-separated fields. *)
Lemma read_row_total (temp : float) (row : list ascii) :
  read_row extract temp row = Some (extract_all extract temp (split_fields row)).
Proof.
  rewrite <- (join_split_fields row) at 1.
  apply read_row_fields; [apply split_fields_nonempty|apply split_fields_comma_free].
Qed.

(** **** Writing and reading back *)









Section with_free_doubles.
Hypothesis show_double_comma_free : forall x, comma_free (show_double x) = true.
Hypothesis show_double_newline_free : forall x, newline_free (show_double x) = true.



End with_free_doubles.

Lemma getlines_one_row (cur row : list ascii) :
  newline_free row = true ->
  getlines cur (row ++ [newline]) = [rev cur ++ row].
Proof.
  revert cur. induction row as [|c row IH]; intros cur Hfree.
  - simpl. by rewrite app_nil_r.
  - simpl in Hfree. apply andb_true_iff in Hfree as [Hc Hfree].
    apply negb_true_iff in Hc. simpl. rewrite Hc, IH by done.
    simpl. by rewrite <- app_assoc.
Qed.

(** C7, as the code has it. Let [r], [c] and [v] be texts without a comma
    and without a line break. The row "r,c,v," (one trailing comma) is read
    as four values, the fourth one extracted from the empty text after the
    last comma; so the assertion [entryLine.size()==3] fails and
    [readSparseMatrix] stops there without adding an entry, unless
    assertions are compiled out ([ndebug]), in which case the entry made of
    the first three values is added. The row "r,c,v" is read as three
    values, the assertion holds and the entry is added. *)
Theorem readSparseMatrix_trailing_comma (ndebug : bool) (temp : float)
    (matrix : SparseMatrixImpl) (r c v : list ascii) :
  comma_free r = true -> comma_free c = true -> comma_free v = true ->
  newline_free r = true -> newline_free c = true -> newline_free v = true ->
  let e0 := extract r temp in
  let e1 := extract c e0 in
  let e2 := extract v e1 in
  let e3 := extract [] e2 in
  read_row extract temp (r ++ comma :: c ++ comma :: v ++ [comma])
  = Some [e0; e1; e2; e3]
  /\ readSparseMatrix extract ndebug temp matrix
       (r ++ comma :: c ++ comma :: v ++ [comma; newline])
     = (if ndebug then inr (m_add (m_clear matrix) e0 e1 e2)
        else inl AssertionFailed)
  /\ read_row extract temp (r ++ comma :: c ++ comma :: v) = Some [e0; e1; e2]
  /\ readSparseMatrix extract ndebug temp matrix
       (r ++ comma :: c ++ comma :: v ++ [newline])
     = inr (m_add (m_clear matrix) e0 e1 e2).
Proof.
  intros Hr Hc Hv Hnr Hnc Hnv e0 e1 e2 e3.
  assert (H4 : read_row extract temp (r ++ comma :: c ++ comma :: v ++ [comma])
               = Some [e0; e1; e2; e3]).
  { apply (read_row_fields temp [r; c; v; []]); [done|].
    simpl. by rewrite Hr, Hc, Hv. }
  assert (H3 : read_row extract temp (r ++ comma :: c ++ comma :: v)
               = Some [e0; e1; e2]).
  { apply (read_row_fields temp [r; c; v]); [done|].
    simpl. by rewrite Hr, Hc, Hv. }
  assert (Hfree4 : newline_free (r ++ comma :: c ++ comma :: v ++ [comma]) = true).
  { unfold newline_free in *. rewrite forallb_app. simpl.
    rewrite forallb_app. simpl. rewrite forallb_app. simpl.
    by rewrite Hnr, Hnc, Hnv. }
  assert (Hfree3 : newline_free (r ++ comma :: c ++ comma :: v) = true).
  { unfold newline_free in *. rewrite forallb_app. simpl.
    rewrite forallb_app. simpl. by rewrite Hnr, Hnc, Hnv. }
  split; [done|]. split; [|split; [done|]].
  - unfold readSparseMatrix.
    replace (r ++ comma :: c ++ comma :: v ++ [comma; newline])
      with ((r ++ comma :: c ++ comma :: v ++ [comma]) ++ [newline]).
    2:{ rewrite <- !app_assoc. simpl. rewrite <- !app_assoc. simpl.
        by rewrite <- !app_assoc. }
    rewrite (getlines_one_row [] _ Hfree4). simpl.
    unfold process_row. rewrite H4. by destruct ndebug.
  - unfold readSparseMatrix.
    replace (r ++ comma :: c ++ comma :: v ++ [newline])
      with ((r ++ comma :: c ++ comma :: v) ++ [newline]).
    2:{ rewrite <- !app_assoc. simpl. by rewrite <- !app_assoc. }
    rewrite (getlines_one_row [] _ Hfree3). simpl.
    unfold process_row. rewrite H3. by destruct ndebug.
Qed.
End readSparseMatrix_facts.

(** ** readSparseMatrix: rows and whole texts *)

Section readSparseMatrix_more.
Import Stuff.
Context {SparseMatrixImpl : Type} `{SparseMatrix SparseMatrixImpl}.
Variable extract : list ascii -> float -> float.

Lemma extract_all_length (temp : float) (fields : list (list ascii)) :
  length (extract_all extract temp fields) = length fields.
Proof.
  revert temp. induction fields as [|f fields IH]; intros temp; simpl; [done|].
  by rewrite IH.
Qed.

Lemma split_fields_length (row : list ascii) :
  length (split_fields row) = S (length (List.filter (Ascii.eqb comma) row)).
Proof.
  induction row as [|c row IH]; [done|].
  cbn [split_fields List.filter].
  rewrite (Ascii.eqb_sym comma c).
  destruct (Ascii.eqb c comma).
  - cbn [length]. by rewrite IH.
  - destruct (split_fields row) as [|f fields]; [done|]. by rewrite <- IH.
Qed.

Lemma process_row_fields (ndebug : bool) (temp : float)
    (matrix : SparseMatrixImpl) (row : list ascii) :
  let entryLine := extract_all extract temp (split_fields row) in
  read_row extract temp row = Some entryLine
  /\ length entryLine = S (length (List.filter (Ascii.eqb comma) row))
  /\ process_row extract ndebug temp matrix row
     = match entryLine with
       | e0 :: e1 :: e2 :: more =>
           if ndebug || Nat.eqb (length more) 0
           then inr (m_add matrix e0 e1 e2)
           else inl AssertionFailed
       | _ => if ndebug then inl OutOfRange else inl AssertionFailed
       end.
Proof.
  intros entryLine. split; [apply read_row_total|].
  split; [unfold entryLine; by rewrite extract_all_length, split_fields_length|].
  unfold process_row. rewrite read_row_total. fold entryLine.
  destruct entryLine as [|e0 [|e1 [|e2 [|e3 more]]]]; simpl; try by destruct ndebug.
Qed.

(** X18. One row of the text. For every row, the loop of [readSparseMatrix]
    comes to its end and reads one value for each field of the row, the
    fields being what the commas separate; so it reads one value more than
    the row has commas. With assertions enabled the row adds an entry
    exactly if it has two commas; otherwise the assertion on the number of
    values fails. With assertions compiled out a row with more than two
    commas adds the entry made of its first three values, and a row with
    fewer reads beyond the end of [entryLine]. *)
Theorem process_row_outcome (ndebug : bool) (temp : float)
    (matrix : SparseMatrixImpl) (row : list ascii) :
  let entryLine := extract_all extract temp (split_fields row) in
  read_row extract temp row = Some entryLine
  /\ length entryLine = S (length (List.filter (Ascii.eqb comma) row))
  /\ process_row extract ndebug temp matrix row
     = match entryLine with
       | e0 :: e1 :: e2 :: more =>
           if ndebug || Nat.eqb (length more) 0
           then inr (m_add matrix e0 e1 e2)
           else inl AssertionFailed
       | _ => if ndebug then inl OutOfRange else inl AssertionFailed
       end.
Proof.
  intros entryLine. split; [apply read_row_total|].
  split; [unfold entryLine; by rewrite extract_all_length, split_fields_length|].
  unfold process_row. rewrite read_row_total. fold entryLine.
  destruct entryLine as [|e0 [|e1 [|e2 [|e3 more]]]]; simpl; try by destruct ndebug.
Qed.

Lemma fold_rows_failed (ndebug : bool) (temp : float) (rows : list (list ascii))
    (e : failure) :
  fold_left
    (fun acc row =>
       match acc with
       | inr matrix => process_row extract ndebug temp matrix row
       | inl e => inl e
       end) rows (inl e)
  = (inl e : failure + SparseMatrixImpl).
Proof. induction rows as [|row rows IH]; simpl; [done|apply IH]. Qed.

(** X19. Which texts [readSparseMatrix] accepts. With assertions enabled,
    [readSparseMatrix] returns a matrix exactly if every line of the input
    has exactly two commas; otherwise it stops at the assertion on the
    number of values, whatever the lines before have added. *)
Theorem readSparseMatrix_accepts (temp : float) (matrix : SparseMatrixImpl)
    (input : list ascii) :
  let well_formed_rows :=
    forallb (fun row => Nat.eqb (length (List.filter (Ascii.eqb comma) row)) 2)
      (getlines [] input) in
  ((exists result, readSparseMatrix extract false temp matrix input = inr result)
   <-> well_formed_rows = true)
  /\ (well_formed_rows = false ->
      readSparseMatrix extract false temp matrix input = inl AssertionFailed).
Proof.
  cbn zeta. unfold readSparseMatrix.
  generalize (m_clear matrix). generalize (getlines [] input).
  intros rows. induction rows as [|row rows IH]; intros acc.
  - simpl. split; [|done]. split; [done|]. intros _. by exists acc.
  - cbn [fold_left forallb].
    destruct (process_row_fields false temp acc row) as (_ & Hlen & Hrow).
    rewrite Hrow. cbn [orb].
    destruct (extract_all extract temp (split_fields row))
      as [|e0 [|e1 [|e2 more]]] eqn:Hfields; cbn [length] in Hlen.
    + lia.
    + assert (Nat.eqb (length (List.filter (Ascii.eqb comma) row)) 2 = false) as ->
        by (apply Nat.eqb_neq; lia).
      rewrite fold_rows_failed. cbn [andb]. split; [|done].
      split; [by intros [? ?]|done].
    + assert (Nat.eqb (length (List.filter (Ascii.eqb comma) row)) 2 = false) as ->
        by (apply Nat.eqb_neq; lia).
      rewrite fold_rows_failed. cbn [andb]. split; [|done].
      split; [by intros [? ?]|done].
    + destruct more as [|e3 more]; cbn [length Nat.eqb] in *.
      * assert (Nat.eqb (length (List.filter (Ascii.eqb comma) row)) 2 = true) as ->
          by (apply Nat.eqb_eq; lia).
        cbn [andb]. apply IH.
      * assert (Nat.eqb (length (List.filter (Ascii.eqb comma) row)) 2 = false) as ->
          by (apply Nat.eqb_neq; lia).
        rewrite fold_rows_failed. cbn [andb]. split; [|done].
        split; [by intros [? ?]|done].
Qed.
End readSparseMatrix_more.

(** ** The stream conversions *)

Section Stream_facts.
Import Stuff Stream.





End Stream_facts.

Section readSparseMatrix_examples.
Import Stuff.

(** C7 fails as stated: the row "1,2,3," is read as four values (the
    extraction from the empty text after the last comma leaves [temp] as it
    is, so the fourth value is the third once more), and with assertions
    enabled [readSparseMatrix] stops at the assertion instead of adding the
    entry. *)
Lemma readSparseMatrix_trailing_comma_fails :
  read_row Stream.extract_double PrimFloat.zero (list_ascii_of_string "1,2,3,")
  = Some [1%float; 2%float; 3%float; 3%float]
  /\ readSparseMatrix Stream.extract_double false PrimFloat.zero (empty_matrix 4 4)
       (list_ascii_of_string "1,2,3," ++ [newline])
     = inl AssertionFailed.
Proof. split; reflexivity. Qed.
End readSparseMatrix_examples.

(** ** The statements at concrete inputs *)

Section concrete_inputs.
Import LA Common Stuff.

Lemma createCompressedSparsityPattern_spec_witness :
  exists q,
    createCompressedSparsityPattern example_pattern identity_get PrimFloat.zero = Some q
    /\ LA.size q = LA.size example_pattern
    /\ (forall r u, LA.set example_pattern r = Some u ->
          exists qr, LA.set q r = Some qr
            /\ (forall c, c ∈ qr <->
                  c ∈ u /\ greater (std_abs (identity_get r c)) PrimFloat.zero = true)
            /\ (PrimFloat.zero = scalar_0 ->
                forall c, identity_get r c = scalar_0 -> c ∉ qr)).
Proof.
  exact (createCompressedSparsityPattern_spec example_pattern identity_get
           PrimFloat.zero eq_refl eq_refl).
Defined.

Lemma tree_int_contract : base_contract (BaseType := DuneParameterTree) (T := Z).
Proof. split. intros this key d. done. Qed.

Lemma get_missing_key_witness :
  get (T := Z) example_tree "end"
  = inl (RangeError
           (String (ascii_of_nat 10) "ERROR: key 'end' missing  in the following Dune::ParameterTree:"
              ++ endl ++ "  dt = 0.1" ++ endl ++ "  n = abc" ++ endl
              ++ "  steps = 10" ++ endl ++ "  [ grid ]" ++ endl
              ++ "  cells = 4" ++ endl)%string)
  /\ get_default (T := Z) plain_highlightString example_tree "end" 7%Z
     = (inr 7%Z,
        [ "WARNING:"; " missing key 'end' is replaced by given default value!"; endl ])
  /\ get (T := Z) example_tree "steps" = inr 10%Z
  /\ get_default (T := Z) plain_highlightString example_tree "grid.cells" 7%Z
     = (inr 4%Z, [])
  /\ ((exists what, get (T := Z) example_tree "n" = inl (RangeError what))
      <-> hasKey (T := Z) example_tree "n" = false
          \/ exists what, BaseType_get (T := Z) example_tree "n" = inl (RangeError what)).
Proof.
  destruct (get_missing_key plain_highlightString (fun _ : Z => EmptyString)
              tree_int_contract example_tree "end" 7%Z)
    as (Hmissing & _ & _ & _).
  destruct (get_missing_key plain_highlightString (fun _ : Z => EmptyString)
              tree_int_contract example_tree "steps" 7%Z)
    as (_ & _ & Hsteps & _).
  destruct (get_missing_key plain_highlightString (fun _ : Z => EmptyString)
              tree_int_contract example_tree "grid.cells" 7%Z)
    as (_ & _ & Hcells & _).
  destruct (get_missing_key plain_highlightString (fun _ : Z => EmptyString)
              tree_int_contract example_tree "n" 7%Z)
    as (_ & _ & _ & Hiff).
  split; [exact (proj1 (Hmissing eq_refl))|].
  split; [exact (proj1 (proj2 (Hmissing eq_refl)))|].
  split; [exact (proj1 (Hsteps 10%Z eq_refl eq_refl))|].
  split; [exact (proj1 (proj2 (Hcells 4%Z eq_refl eq_refl)))|].
  exact Hiff.
Defined.

(** C8 fails as stated: in [example_tree] the key [n] is present, its text
    is not a number, and [get< int >] raises a [RangeError] for it, the
    one of the base class. *)
Lemma get_present_key_raises :
  hasKey (T := Z) example_tree "n" = true
  /\ get (T := string) example_tree "n" = inr "abc"
  /\ exists what, get (T := Z) example_tree "n" = inl (RangeError what).
Proof. split; [reflexivity|]. split; [reflexivity|]. eexists. reflexivity. Qed.



Lemma readSparseMatrix_trailing_comma_witness :
  read_row Stream.extract_double PrimFloat.zero (list_ascii_of_string "1,2,3,")
  = Some [1%float; 2%float; 3%float; 3%float]
  /\ readSparseMatrix Stream.extract_double false PrimFloat.zero (empty_matrix 4 4)
       (list_ascii_of_string "1,2,3," ++ [newline])
     = inl AssertionFailed
  /\ readSparseMatrix Stream.extract_double false PrimFloat.zero (empty_matrix 4 4)
       (list_ascii_of_string "1,2,3" ++ [newline])
     = inr (m_add (m_clear (empty_matrix 4 4)) 1%float 2%float 3%float).
Proof.
  destruct (readSparseMatrix_trailing_comma Stream.extract_double false PrimFloat.zero
              (empty_matrix 4 4)
              (list_ascii_of_string "1") (list_ascii_of_string "2")
              (list_ascii_of_string "3")
              eq_refl eq_refl eq_refl eq_refl eq_refl eq_refl)
    as (H4 & Hfail & _ & Hok).
  split; [exact H4|]. split; [exact Hfail|exact Hok].
Defined.
End concrete_inputs.

(** ** The further statements at concrete inputs *)

Section further_concrete_inputs.
Import LA Common Stuff.



Lemma subscript_int_positions_witness :
  exists x, subscript_int 4 [10; 20; 30; 40] (-1) = Some x
    /\ nth_error [10; 20; 30; 40] (Z.to_nat (4 - 1 - (- -1) mod 4)) = Some x.
Proof.
  assert (HN : (0 < 4)%Z) by lia.
  assert (Hmax : (4 <= CInt.INT_MAX)%Z) by (unfold CInt.INT_MAX; lia).
  assert (Hmin : (CInt.INT_MIN < -1)%Z) by (unfold CInt.INT_MIN; lia).
  assert (Himax : (-1 <= CInt.INT_MAX)%Z) by (unfold CInt.INT_MAX; lia).
  destruct (subscript_int_positions 4 (-1) [10; 20; 30; 40] HN Hmax eq_refl Hmin Himax)
    as (Hneg & _ & _).
  apply Hneg. lia.
Defined.

Lemma createCompressedSparsityPattern_idempotent_witness :
  createCompressedSparsityPattern
    (default [] (createCompressedSparsityPattern example_pattern identity_get PrimFloat.zero))
    identity_get PrimFloat.zero
  = Some (default [] (createCompressedSparsityPattern example_pattern identity_get
                        PrimFloat.zero)).
Proof.
  apply (createCompressedSparsityPattern_idempotent example_pattern).
  reflexivity.
Defined.
End further_concrete_inputs.
